(** * fb-auth: the ads-insights extraction, fan-out and warehouse load

    A shallow embedding of the pipeline script of the repository (the
    source file that resolves ad accounts, lists their ads, requests the
    insights of every ad for every period and breakdown combination and
    inserts the resulting records into per-combination warehouse
    tables), followed by the properties of that code.

    - JavaScript values are a JSON-like inductive type [value]; arrays
      are [VArr], so [Array.prototype.flat] can tell an array element
      from any other element, as the source relies on.
    - Calls to the remote Graph API are a writer/error monad [M]: a
      computation yields its result or the error it threw, together
      with the calls it issued, in issue order.
    - The warehouse load is a transition system over suspended [async]
      callbacks, one per record, that share the [tables] object. *)

From Stdlib Require Import ZArith List String Lia.
From stdpp Require Import base option list strings pretty gmap.

Set Warnings "-register-all".
Open Scope string_scope.
Open Scope list_scope.

(** ** JavaScript values *)

Inductive value : Type :=
| VUndefined
| VNull
| VBool (b : bool)
| VNum (n : Z)
| VStr (s : string)
| VArr (elems : list value)
| VObj (fields : list (string * value)).

(** What a [throw] or a rejected promise carries. [Thrown msg] is
    [new Error(msg)] raised by the script itself, [TypeError] is the
    engine's error on a property read of [undefined]/[null] or a call of
    a non-function, [RemoteError cause] is a failure of a collaborator
    (the Graph API client or the warehouse client), passed on as is. *)
Inductive error : Type :=
| Thrown (msg : string)
| TypeError
| RemoteError (cause : string).

Definition result (A : Type) : Type := error + A.

(** [sep]-separated concatenation, the string part of [Array.join]. *)
Fixpoint join_with (sep : string) (l : list string) : string :=
  match l with
  | [] => ""
  | [x] => x
  | x :: xs => x +:+ sep +:+ join_with sep xs
  end.

(** The [ToString] conversion used by template literals and by
    [Array.join]. Numbers are the integers of the JSON payloads. *)
Fixpoint toString (v : value) : string :=
  match v with
  | VUndefined => "undefined"
  | VNull => "null"
  | VBool true => "true"
  | VBool false => "false"
  | VNum n => pretty n
  | VStr s => s
  | VArr elems =>
      join_with ","
        (map (fun e => match e with
                       | VUndefined | VNull => ""
                       | _ => toString e
                       end) elems)
  | VObj _ => "[object Object]"
  end.

(** [elems.join(sep)]: [undefined] and [null] elements print as the
    empty string, every other element through [toString]. *)
Definition js_join (sep : string) (elems : list value) : string :=
  join_with sep
    (map (fun e => match e with
                   | VUndefined | VNull => ""
                   | _ => toString e
                   end) elems).

Fixpoint assoc (k : string) (fields : list (string * value)) : option value :=
  match fields with
  | [] => None
  | (k', v) :: rest => if String.eqb k k' then Some v else assoc k rest
  end.

(** [v.k] (also the destructuring [({k}) => ...]) for a key [k] that is
    no built-in property, as [id], [account_id], [period] and
    [breakdowns] are: reading it from [undefined] or [null] throws, from
    an object without it, or from any other value, gives [undefined]. *)
Definition get_prop (k : string) (v : value) : result value :=
  match v with
  | VUndefined | VNull => inl TypeError
  | VObj fields => inr (default VUndefined (assoc k fields))
  | _ => inr VUndefined
  end.

(** [v === s] for a string literal [s]. *)
Definition strict_eq_str (v : value) (s : string) : bool :=
  match v with
  | VStr s' => String.eqb s' s
  | _ => false
  end.

(** One level of [Array.prototype.flat()]: an element that is an array
    is replaced by its elements, any other element stays. *)
Definition flat (l : list value) : list value :=
  concat (map (fun v => match v with VArr elems => elems | _ => [v] end) l).

Definition is_array (v : value) : bool :=
  match v with VArr _ => true | _ => false end.

(** ** The monad of remote calls *)

(** [fetchGraphApi(path, params)]; [params] is [VUndefined] when the
    call site passes none. *)
Record call : Type := Call { call_path : string; call_params : value }.

Definition M (A : Type) : Type := (result A * list call)%type.

#[export] Instance M_ret : MRet M := fun A a => (inr a, []).

#[export] Instance M_bind : MBind M := fun A B f m =>
  match fst m with
  | inl e => (inl e, snd m)
  | inr a => (fst (f a), snd m ++ snd (f a))
  end.

#[export] Instance M_fmap : FMap M := fun A B f m =>
  match fst m with
  | inl e => (inl e, snd m)
  | inr a => (inr (f a), snd m)
  end.

Definition throw {A : Type} (e : error) : M A := (inl e, []).

(** A synchronous step that may throw, inside an [async] function. *)
Definition lift {A : Type} (r : result A) : M A := (r, []).

(** Modelled from the spec: [paralellize] of [lib/utils], which is not
    among the sources verified here. The spec describes the shared
    primitive as "execute all units" of a collection under a cap on the
    calls in flight, the flattening of results being a separate step of
    its callers; so it yields one result per item, in item order, and
    fails when a unit fails. Units are run here in item order. *)
Fixpoint paralellize {A B : Type} (items : list A) (fn : A → M B) : M (list B) :=
  match items with
  | [] => mret []
  | x :: rest =>
      y ← fn x;
      ys ← paralellize rest fn;
      mret (y :: ys)
  end.

(** ** Configuration constants of the script *)

Definition AD_ACCOUNT_SOURCES : list (string * string) :=
  [("personal", "personal"); ("business", "business")].

Definition PERIODS : list (string * string) :=
  [("daily", "daily"); ("lifetime", "lifetime")].

Definition BREAKDOWNS : list (list string) :=
  [["age"; "gender"]; ["country"; "region"]].

Definition USER_ID : string := "10235767919166237".

(** [Object.keys(o)] of an object literal with string keys. *)
Definition Object_keys {A : Type} (o : list (string * A)) : list string :=
  map fst o.

(** [o.k] of a constant object literal that has the key. *)
Definition const_prop (k : string) (o : list (string * string)) : string :=
  default "" (snd <$> find (fun kv => String.eqb (fst kv) k) o).

Definition str_array (l : list string) : value := VArr (map VStr l).

(** ** Account, ad and insight resolution *)

Section GraphApi.

(** The outcome of one Graph API call through the client bound to the
    access token: the array of result rows, or the client's error
    once it gave up. The client itself ([createFetchGraphApi]) is not
    among the sources verified here. *)
Variable remote : string → value → string + list value.

(** [Object.keys(zodSchemas.metrics)], the fixed metric list. *)
Variable metrics : list string.

Definition fetchGraphApi (path : string) (params : value) : M (list value) :=
  (match remote path params with
   | inl cause => inl (RemoteError cause)
   | inr rows => inr rows
   end, [Call path params]).

Definition fetchAdAccounts (source : value) : M (list value) :=
  if strict_eq_str source (const_prop "personal" AD_ACCOUNT_SOURCES) then
    fetchGraphApi "/me/adaccounts" VUndefined
  else if strict_eq_str source (const_prop "business" AD_ACCOUNT_SOURCES) then
    businesses ← fetchGraphApi "/me/businesses" VUndefined;
    paralellize businesses (fun business =>
      id ← lift (get_prop "id" business);
      VArr <$> fetchGraphApi ("/" +:+ toString id +:+ "/owned_ad_accounts") VUndefined)
  else
    throw (Thrown ("Unknown ad accounts source " +:+ toString source)).

Definition insightsPayload (period : string) (breakdowns : list string) : value :=
  let payload :=
    [("fields", str_array metrics); ("breakdowns", str_array breakdowns)] in
  if String.eqb period (const_prop "daily" PERIODS)
  then VObj (payload ++ [("time_increment", VNum 1)])
  else VObj payload.

Definition fetchAdInsights (adId : value) (period : string)
    (breakdowns : list string) : M (list value) :=
  fetchGraphApi ("/" +:+ toString adId +:+ "/insights")
                (insightsPayload period breakdowns).

Definition fetchAds (adAccounts : list value) : M (list value) :=
  flat <$> paralellize adAccounts (fun account =>
    id ← lift (get_prop "id" account);
    VArr <$> fetchGraphApi ("/" +:+ toString id +:+ "/ads")
               (VObj [("fields", str_array ["ad_id"; "account_id"])])).

(** The object literal of one insight record. *)
Definition insightRecord (account_id ad_id : value) (period : string)
    (breakdowns : list string) (insights : list value) : value :=
  VObj [("user_id", VStr USER_ID);
        ("ad_account_id", account_id);
        ("ad_id", ad_id);
        ("period", VStr period);
        ("breakdowns", str_array breakdowns);
        ("insights", VArr insights)].

Definition insightUnit (period : string) (breakdowns : list string)
    (ad : value) : M value :=
  account_id ← lift (get_prop "account_id" ad);
  ad_id ← lift (get_prop "id" ad);
  adId ← lift (get_prop "id" ad);
  insights ← fetchAdInsights adId period breakdowns;
  mret (insightRecord account_id ad_id period breakdowns insights).

(** The three nested [paralellize] calls and the four [.flat()]. *)
Definition fanout (periods : list string) (breakdownCombos : list (list string))
    (ads : list value) : M (list value) :=
  nested ← paralellize periods (fun period =>
    VArr <$> paralellize breakdownCombos (fun breakdowns =>
      VArr <$> paralellize ads (insightUnit period breakdowns)));
  mret (flat (flat (flat (flat nested)))).

Definition brokenDownInsights (ads : list value) : M (list value) :=
  fanout (Object_keys PERIODS) BREAKDOWNS ads.

(** The script up to the records it hands to the warehouse load. *)
Definition pipeline : M (list value) :=
  adAccounts ← fetchAdAccounts (VStr (const_prop "personal" AD_ACCOUNT_SOURCES));
  ads ← fetchAds adAccounts;
  brokenDownInsights ads.

End GraphApi.

(** ** The warehouse load *)

(** The table a record is routed to: [const {breakdowns, period} = data],
    [breakdowns.join('_')] and the template literal of the name. A
    [breakdowns] that is no array has no [join] to call. *)
Definition tableName (data : value) : result string :=
  match get_prop "breakdowns" data with
  | inl e => inl e
  | inr breakdowns =>
      match get_prop "period" data with
      | inl e => inl e
      | inr period =>
          match breakdowns with
          | VArr elems =>
              let breakdownName := js_join "_" elems in
              inr ("facebook_ads_insights_" +:+ toString period +:+ "_" +:+ breakdownName)
          | _ => inl TypeError
          end
      end
  end.

Definition fullyQualifiedTableName (projectId tableName : string) : string :=
  projectId +:+ ".facebook_ads_insights." +:+ tableName.

(** The table name in the words of the specification, for comparison
    with [tableName]. *)
Definition spec_tableName (period : string) (breakdowns : list string) : string :=
  "ads_insights_" +:+ period +:+ "_" +:+ join_with "_" breakdowns.

Section Warehouse.

(** [config.projectId]. *)
Variable projectId : string.

(** Column schemas and table handles of the warehouse client. *)
Variables Schema Table : Type.

(** [zodSchemas.schemas[tableName]]: [None] is the [undefined] of a
    name without a registered schema. *)
Variable schemas : string → option Schema.

(** The outcome of [bigQuery.getTable(name, schema)] and of
    [table.insert(data)]: the client's error, or the handle. The
    client ([lib/bigquery]) is not among the sources verified here. *)
Variable getTable : string → option Schema → string + Table.
Variable insert : Table → value → string + unit.

Inductive wcall : Type :=
| GetTable (name : string) (schema : option Schema)
| Insert (table : Table) (data : value).

(** One invocation of the [async (data) => ...] callback: suspended
    at one of its two [await]s with the awaited outcome, or settled. *)
Inductive task : Type :=
| AwaitGetTable (tableName : string) (data : value) (pending : string + Table)
| AwaitInsert (pending : string + unit)
| Resolved
| Rejected (e : error).

(** The [tables] object, the warehouse calls issued so far, the
    callbacks in record order, and the first rejection, which is what
    [Promise.all] rejects with. A table name starts with
    [facebook_ads_insights_], so [tables[tableName]] never reads a
    property that [{}] inherits: the object is the finite map of the
    names stored in it. *)
Record loader : Type := Loader {
  tables : gmap string Table;
  issued : list wcall;
  tasks : list task;
  rejection : option error
}.

Definition first_rejection (r : option error) (e : error) : option error :=
  match r with
  | Some e0 => Some e0
  | None => Some e
  end.

(** [.map] invoking the callback on one record: the callback runs up
    to its first [await]. *)
Definition start (st : loader) (data : value) : loader :=
  match tableName data with
  | inl e =>
      Loader (tables st) (issued st) (tasks st ++ [Rejected e])
             (first_rejection (rejection st) e)
  | inr name =>
      match tables st !! name with
      | None =>
          let fullName := fullyQualifiedTableName projectId name in
          let schema := schemas name in
          Loader (tables st)
                 (issued st ++ [GetTable fullName schema])
                 (tasks st ++ [AwaitGetTable name data (getTable fullName schema)])
                 (rejection st)
      | Some table =>
          Loader (tables st)
                 (issued st ++ [Insert table data])
                 (tasks st ++ [AwaitInsert (insert table data)])
                 (rejection st)
      end
  end.

(** [const tables = {}] and [brokenDownInsights.map(async ...)]. *)
Definition load_start (records : list value) : loader :=
  fold_left start records (Loader ∅ [] [] None).

Definition settle (i : nat) (t : task) (st : loader) : loader :=
  Loader (tables st) (issued st) (<[i := t]> (tasks st))
         (match t with
          | Rejected e => first_rejection (rejection st) e
          | _ => rejection st
          end).

(** The event loop resuming callback [i] when what it awaits has
    settled: after [getTable] the callback stores the handle, reads
    it back and issues the insert; after the insert it is done. *)
Definition resume (st : loader) (i : nat) : loader :=
  match tasks st !! i with
  | Some (AwaitGetTable name data (inr table)) =>
      let tables' := <[name := table]> (tables st) in
      match tables' !! name with
      | Some table' =>
          Loader tables'
                 (issued st ++ [Insert table' data])
                 (<[i := AwaitInsert (insert table' data)]> (tasks st))
                 (rejection st)
      | None => settle i (Rejected TypeError) st
      end
  | Some (AwaitGetTable _ _ (inl cause)) => settle i (Rejected (RemoteError cause)) st
  | Some (AwaitInsert (inr _)) => settle i Resolved st
  | Some (AwaitInsert (inl cause)) => settle i (Rejected (RemoteError cause)) st
  | _ => st
  end.

(** A schedule is the order in which suspended callbacks are resumed. *)
Definition run (schedule : list nat) (st : loader) : loader :=
  fold_left resume schedule st.

Definition is_resolved (t : task) : bool :=
  match t with Resolved => true | _ => false end.

Definition is_awaiting (t : task) : bool :=
  match t with AwaitGetTable _ _ _ | AwaitInsert _ => true | _ => false end.

(** What [await Promise.all(...)] has produced, if it has settled. *)
Definition outcome (st : loader) : option (result unit) :=
  match rejection st with
  | Some e => Some (inl e)
  | None => if forallb is_resolved (tasks st) then Some (inr tt) else None
  end.

(** Warehouse calls awaiting their outcome. *)
Definition in_flight (st : loader) : nat :=
  length (filter (fun t => is_awaiting t = true) (tasks st)).

Definition is_getTable (c : wcall) : bool :=
  match c with GetTable _ _ => true | Insert _ _ => false end.

Definition getTable_calls (st : loader) : list wcall :=
  filter (fun c => is_getTable c = true) (issued st).

(** Every callback resumed once for its table and once for its insert. *)
Definition full_schedule (n : nat) : list nat := seq 0 n ++ seq 0 n.

Definition load (records : list value) : loader :=
  run (full_schedule (length records)) (load_start records).

End Warehouse.

Arguments GetTable {Schema Table} name schema.
Arguments Insert {Schema Table} table data.
Arguments AwaitGetTable {Table} tableName data pending.
Arguments AwaitInsert {Table} pending.
Arguments Resolved {Table}.
Arguments Rejected {Table} e.
Arguments Loader {Schema Table} tables issued tasks rejection.
Arguments tables {Schema Table} l.
Arguments issued {Schema Table} l.
Arguments tasks {Schema Table} l.
Arguments rejection {Schema Table} l.
Arguments start projectId {Schema Table} schemas getTable insert st data.
Arguments load_start projectId {Schema Table} schemas getTable insert records.
Arguments settle {Schema Table} i t st.
Arguments resume {Schema Table} insert st i.
Arguments run {Schema Table} insert schedule st.
Arguments is_resolved {Table} t.
Arguments is_awaiting {Table} t.
Arguments outcome {Schema Table} st.
Arguments in_flight {Schema Table} st.
Arguments is_getTable {Schema Table} c.
Arguments getTable_calls {Schema Table} st.
Arguments load projectId {Schema Table} schemas getTable insert records.

(** ** Derived notions used by the statements *)

(** The correlation key of a record: its [ad_id], [period] and
    [breakdowns] properties. *)
Definition record_key (r : value) : result value * result value * result value :=
  (get_prop "ad_id" r, get_prop "period" r, get_prop "breakdowns" r).

(** [ad.id] and [ad.account_id] of an ad that is an object. *)
Definition id_of (ad : value) : value :=
  match get_prop "id" ad with inr v => v | inl _ => VUndefined end.

Definition account_of (ad : value) : value :=
  match get_prop "account_id" ad with inr v => v | inl _ => VUndefined end.

(** The arguments [fetchAdInsights] is called with for one unit. *)
Definition insightRequest (period : string) (breakdowns : list string)
    (ad : value) : value * string * list string :=
  (id_of ad, period, breakdowns).

Section FanoutShape.

Variable remote : string → value → string + list value.
Variable metrics : list string.

(** The Graph API call of one unit of the fan-out. *)
Definition insightCall (period : string) (breakdowns : list string)
    (ad : value) : call :=
  Call ("/" +:+ toString (id_of ad) +:+ "/insights")
       (insightsPayload metrics period breakdowns).

(** The call of a unit goes through: the ad is an object (its
    properties can be read) and the remote answers with rows. *)
Definition request_ok (period : string) (breakdowns : list string)
    (ad : value) : Prop :=
  (∃ v, get_prop "id" ad = inr v) ∧
  ∃ rows, remote (call_path (insightCall period breakdowns ad))
                 (call_params (insightCall period breakdowns ad)) = inr rows.

(** The record a unit produces when its call goes through. *)
Definition unitRecord (period : string) (breakdowns : list string)
    (ad : value) : value :=
  insightRecord (account_of ad) (id_of ad) period breakdowns
    (match remote (call_path (insightCall period breakdowns ad))
                  (call_params (insightCall period breakdowns ad)) with
     | inr rows => rows
     | inl _ => []
     end).

(** The request matrix in the order of the three nested maps. *)
Definition matrix {A : Type} (unit : string → list string → value → A)
    (periods : list string) (breakdownCombos : list (list string))
    (ads : list value) : list A :=
  period ← periods; breakdowns ← breakdownCombos; unit period breakdowns <$> ads.

End FanoutShape.

(** ** Lemmas on the monad and on [flat] *)

Lemma bind_inr {A B : Type} (m : M A) (f : A → M B) (a : A) (w : list call) :
  m = (inr a, w) → m ≫= f = (fst (f a), w ++ snd (f a)).
Proof. intros ->. reflexivity. Qed.

Lemma bind_inl {A B : Type} (m : M A) (f : A → M B) (e : error) (w : list call) :
  m = (inl e, w) → m ≫= f = (inl e, w).
Proof. intros ->. reflexivity. Qed.

Lemma fmap_inr {A B : Type} (m : M A) (f : A → B) (a : A) (w : list call) :
  m = (inr a, w) → f <$> m = (inr (f a), w).
Proof. intros ->. reflexivity. Qed.

Lemma paralellize_cons {A B : Type} (x : A) (rest : list A) (fn : A → M B) :
  paralellize (x :: rest) fn =
    fn x ≫= (fun y => paralellize rest fn ≫= (fun ys => mret (y :: ys))).
Proof. reflexivity. Qed.

(** When every unit goes through, [paralellize] is [map] on the
    results and issues the units' calls. *)
Lemma paralellize_ok {A B : Type} (items : list A) (fn : A → M B)
    (g : A → B) (w : A → list call) :
  (∀ x, x ∈ items → fn x = (inr (g x), w x)) →
  paralellize items fn = (inr (g <$> items), items ≫= w).
Proof.
  induction items as [|x rest IH]; intros Hok; [reflexivity|].
  rewrite paralellize_cons.
  rewrite (bind_inr _ _ (g x) (w x)) by (apply Hok; left).
  rewrite (bind_inr _ _ (g <$> rest) (rest ≫= w))
    by (apply IH; intros y Hy; apply Hok; right; exact Hy).
  cbn. rewrite app_nil_r. reflexivity.
Qed.

(** A run of [paralellize] that returned went through every unit. *)
Lemma paralellize_inr {A B : Type} (items : list A) (fn : A → M B)
    (ys : list B) (tr : list call) :
  paralellize items fn = (inr ys, tr) →
  Forall2 (fun x y => fst (fn x) = inr y) items ys ∧
  tr = items ≫= (fun x => snd (fn x)).
Proof.
  revert ys tr. induction items as [|x rest IH]; intros ys tr H.
  - injection H as <- <-. split; constructor.
  - rewrite paralellize_cons in H.
    destruct (fn x) as [[e|y] w] eqn:Hx.
    + rewrite (bind_inl _ _ e w) in H by reflexivity. discriminate.
    + rewrite (bind_inr _ _ y w) in H by reflexivity.
      destruct (paralellize rest fn) as [[e|ys'] w'] eqn:Hrest.
      * rewrite (bind_inl _ _ e w') in H by reflexivity. discriminate.
      * rewrite (bind_inr _ _ ys' w') in H by reflexivity. cbn in H.
        injection H as <- <-.
        destruct (IH ys' w' eq_refl) as [HF ->].
        split; [constructor; [rewrite Hx; reflexivity|exact HF]|].
        cbn. rewrite Hx, app_nil_r. reflexivity.
Qed.

(** A failing unit makes [paralellize] fail, with the error of a
    failing unit. *)
Lemma paralellize_inl {A B : Type} (items : list A) (fn : A → M B)
    (x : A) (e : error) :
  x ∈ items → fst (fn x) = inl e →
  ∃ x' e', x' ∈ items ∧ fst (fn x') = inl e' ∧
           fst (paralellize items fn) = inl e'.
Proof.
  induction items as [|y rest IH]; intros Hin Hx; [inversion Hin|].
  rewrite paralellize_cons.
  destruct (fn y) as [[e0|b] w] eqn:Hy.
  - exists y, e0. rewrite Hy. split; [left|]. split; reflexivity.
  - rewrite (bind_inr _ _ b w) by reflexivity.
    assert (Hrest : x ∈ rest).
    { apply elem_of_cons in Hin as [->|Hin]; [|exact Hin].
      rewrite Hy in Hx. discriminate. }
    destruct (IH Hrest Hx) as (x' & e' & Hin' & Hx' & Hp).
    exists x', e'. split; [right; exact Hin'|]. split; [exact Hx'|].
    destruct (paralellize rest fn) as [[e1|ys] w'].
    + cbn in Hp. injection Hp as ->. reflexivity.
    + discriminate.
Qed.

Lemma flat_non_arrays (l : list value) :
  Forall (fun v => is_array v = false) l → flat l = l.
Proof.
  unfold flat. induction 1 as [|v l Hv _ IH]; [reflexivity|].
  cbn. rewrite IH. destruct v; try reflexivity. discriminate.
Qed.

Lemma flat_app (l1 l2 : list value) : flat (l1 ++ l2) = flat l1 ++ flat l2.
Proof. unfold flat. rewrite map_app, concat_app. reflexivity. Qed.

Lemma flat_bind {A : Type} (f : A → list value) (l : list A) :
  flat (l ≫= f) = l ≫= (fun x => flat (f x)).
Proof.
  induction l as [|x l IH]; [reflexivity|].
  rewrite !bind_cons, flat_app, IH. reflexivity.
Qed.

Lemma bind_fmap_singleton {A B : Type} (f : A → B) (l : list A) :
  l ≫= (fun x => [f x]) = f <$> l.
Proof. induction l as [|x l IH]; [reflexivity|]. rewrite bind_cons, IH. reflexivity. Qed.

(** ** The shape of the request matrix *)

Lemma matrix_length {A : Type} (unit : string → list string → value → A)
    (periods : list string) (combos : list (list string)) (ads : list value) :
  length (matrix unit periods combos ads)
  = length ads * length periods * length combos.
Proof.
  unfold matrix.
  assert (Hin : ∀ p, length (combos ≫= (fun c => unit p c <$> ads))
                     = length ads * length combos).
  { intros p. induction combos as [|c cs IH]; [cbn; lia|].
    rewrite bind_cons, length_app, length_fmap, IH. cbn. lia. }
  induction periods as [|p ps IH]; [cbn; lia|].
  rewrite bind_cons, length_app, Hin, IH. cbn. lia.
Qed.

Lemma matrix_fmap {A B : Type} (f : A → B)
    (unit : string → list string → value → A)
    (periods : list string) (combos : list (list string)) (ads : list value) :
  f <$> matrix unit periods combos ads
  = matrix (fun p c ad => f (unit p c ad)) periods combos ads.
Proof.
  unfold matrix.
  induction periods as [|p ps IH]; [reflexivity|].
  rewrite !bind_cons, fmap_app, IH. f_equal.
  clear IH. induction combos as [|c cs IH]; [reflexivity|].
  rewrite !bind_cons, fmap_app, IH. f_equal.
  rewrite <- list_fmap_compose. reflexivity.
Qed.

Lemma elem_of_matrix {A : Type} (unit : string → list string → value → A)
    (periods : list string) (combos : list (list string)) (ads : list value)
    (x : A) :
  x ∈ matrix unit periods combos ads ↔
  ∃ p c ad, p ∈ periods ∧ c ∈ combos ∧ ad ∈ ads ∧ x = unit p c ad.
Proof.
  unfold matrix. rewrite list_elem_of_bind. split.
  - intros (p & Hx & Hp). apply list_elem_of_bind in Hx as (c & Hx & Hc).
    apply list_elem_of_fmap in Hx as (ad & -> & Had). eauto 10.
  - intros (p & c & ad & Hp & Hc & Had & ->).
    exists p. split; [|exact Hp]. apply list_elem_of_bind.
    exists c. split; [|exact Hc]. apply list_elem_of_fmap. eauto.
Qed.

(** Distinct ad ids, periods and breakdown combinations give a matrix
    of pairwise distinct requests. *)
Lemma matrix_requests_NoDup (periods : list string)
    (combos : list (list string)) (ads : list value) :
  NoDup (id_of <$> ads) → NoDup periods → NoDup combos →
  NoDup (matrix insightRequest periods combos ads).
Proof.
  intros Hads Hps Hcs. unfold matrix.
  apply NoDup_bind; [| |exact Hps].
  - intros p1 p2 y _ _ H1 H2.
    apply list_elem_of_bind in H1 as (c1 & H1 & _).
    apply list_elem_of_bind in H2 as (c2 & H2 & _).
    apply list_elem_of_fmap in H1 as (a1 & -> & _).
    apply list_elem_of_fmap in H2 as (a2 & E & _).
    unfold insightRequest in E. congruence.
  - intros p _. apply NoDup_bind; [| |exact Hcs].
    + intros c1 c2 y _ _ H1 H2.
      apply list_elem_of_fmap in H1 as (a1 & -> & _).
      apply list_elem_of_fmap in H2 as (a2 & E & _).
      unfold insightRequest in E. congruence.
    + intros c _.
      assert (E : insightRequest p c <$> ads
                  = (fun i => (i, p, c)) <$> (id_of <$> ads)).
      { rewrite <- list_fmap_compose. reflexivity. }
      rewrite E. apply NoDup_fmap_2_strong; [|exact Hads].
      intros x y _ _ Hxy. congruence.
Qed.

(** ** What the fan-out returns *)

Section FanoutFacts.

Variable remote : string → value → string + list value.
Variable metrics : list string.

Lemma insightUnit_ok (p : string) (c : list string) (ad : value) :
  request_ok remote metrics p c ad →
  insightUnit remote metrics p c ad
  = (inr (unitRecord remote metrics p c ad), [insightCall metrics p c ad]).
Proof.
  intros [[v Hv] [rows Hrows]].
  unfold insightUnit, unitRecord, fetchAdInsights, fetchGraphApi.
  unfold insightCall, account_of, id_of in *. cbn in Hrows.
  destruct ad; try discriminate; cbn in *; rewrite Hrows; reflexivity.
Qed.

Lemma insightUnit_inr (p : string) (c : list string) (ad r : value) :
  fst (insightUnit remote metrics p c ad) = inr r →
  request_ok remote metrics p c ad.
Proof.
  unfold insightUnit, request_ok, fetchAdInsights, fetchGraphApi.
  unfold insightCall, id_of.
  destruct ad; cbn; try discriminate; intros H;
    (split; [eauto|]);
    match goal with
    | H : context [remote ?a ?b] |- _ =>
        destruct (remote a b) as [cause|rows] eqn:E;
          [cbn in H; discriminate|eauto]
    end.
Qed.

(** A unit fails either on reading a property of an ad that is
    [undefined] or [null], or with the error of its remote call. *)
Lemma insightUnit_inl (p : string) (c : list string) (ad : value) (e : error) :
  fst (insightUnit remote metrics p c ad) = inl e →
  e = TypeError ∨
  ∃ cause, remote (call_path (insightCall metrics p c ad))
                  (call_params (insightCall metrics p c ad)) = inl cause
           ∧ e = RemoteError cause.
Proof.
  unfold insightUnit, fetchAdInsights, fetchGraphApi, insightCall, id_of.
  destruct ad; cbn; intros H; try (left; congruence);
    match goal with
    | H : context [remote ?a ?b] |- _ =>
        destruct (remote a b) as [cause|rows] eqn:E; cbn in H;
          [right; exists cause; split; congruence|discriminate]
    end.
Qed.

Lemma record_not_array (p : string) (c : list string) (ad : value) :
  is_array (unitRecord remote metrics p c ad) = false.
Proof. reflexivity. Qed.

Lemma flat_records (periods : list string) (combos : list (list string))
    (ads : list value) :
  flat (matrix (unitRecord remote metrics) periods combos ads)
  = matrix (unitRecord remote metrics) periods combos ads.
Proof.
  apply flat_non_arrays, Forall_forall. intros r Hr.
  apply elem_of_matrix in Hr as (p & c & ad & _ & _ & _ & ->).
  apply record_not_array.
Qed.

(** The four [.flat()] of the nested result of the three maps. *)
Lemma flat_nested (periods : list string) (combos : list (list string))
    (ads : list value) :
  flat (flat (flat (flat
    ((fun p => VArr ((fun c => VArr (unitRecord remote metrics p c <$> ads))
                       <$> combos)) <$> periods))))
  = matrix (unitRecord remote metrics) periods combos ads.
Proof.
  assert (E2 : ∀ p, flat ((fun c => VArr (unitRecord remote metrics p c <$> ads))
                            <$> combos)
                    = combos ≫= (fun c => unitRecord remote metrics p c <$> ads)).
  { intros p. induction combos as [|c cs IH]; [reflexivity|].
    rewrite fmap_cons, bind_cons, <- IH. reflexivity. }
  assert (E1 : flat ((fun p => VArr ((fun c =>
                  VArr (unitRecord remote metrics p c <$> ads)) <$> combos))
                <$> periods)
               = periods ≫= (fun p => (fun c =>
                   VArr (unitRecord remote metrics p c <$> ads)) <$> combos)).
  { clear E2. induction periods as [|p ps IH]; [reflexivity|].
    rewrite fmap_cons, bind_cons, <- IH. reflexivity. }
  rewrite E1, flat_bind.
  rewrite (list_bind_ext _ _ periods periods E2 eq_refl).
  change (periods ≫= _) with (matrix (unitRecord remote metrics) periods combos ads).
  rewrite !flat_records. reflexivity.
Qed.

(** When every request of the matrix goes through, the fan-out
    returns the records of the matrix and has issued its calls. *)
Lemma fanout_ok (periods : list string) (combos : list (list string))
    (ads : list value) :
  (∀ p c ad, p ∈ periods → c ∈ combos → ad ∈ ads →
             request_ok remote metrics p c ad) →
  fanout remote metrics periods combos ads
  = (inr (matrix (unitRecord remote metrics) periods combos ads),
     matrix (insightCall metrics) periods combos ads).
Proof.
  intros Hok. unfold fanout.
  erewrite bind_inr; cycle 1.
  { apply (paralellize_ok periods _
      (fun p => VArr ((fun c => VArr (unitRecord remote metrics p c <$> ads))
                        <$> combos))
      (fun p => combos ≫= (fun c => insightCall metrics p c <$> ads))).
    intros p Hp. apply fmap_inr.
    apply (paralellize_ok combos _
      (fun c => VArr (unitRecord remote metrics p c <$> ads))
      (fun c => insightCall metrics p c <$> ads)).
    intros c Hc. apply fmap_inr.
    rewrite <- (bind_fmap_singleton (insightCall metrics p c)).
    apply paralellize_ok. intros ad Had. apply insightUnit_ok. auto. }
  cbn [fst snd mret M_ret]. rewrite app_nil_r, flat_nested. reflexivity.
Qed.

(** A fan-out that returned went through every request. *)
Lemma fanout_inr (periods : list string) (combos : list (list string))
    (ads records : list value) (calls : list call) :
  fanout remote metrics periods combos ads = (inr records, calls) →
  periods = [] ∨ combos = [] ∨
  ∀ p c ad, p ∈ periods → c ∈ combos → ad ∈ ads →
            request_ok remote metrics p c ad.
Proof.
  intros H.
  destruct periods as [|p0 ps]; [left; reflexivity|].
  destruct combos as [|c0 cs]; [right; left; reflexivity|].
  right; right. intros p c ad Hp Hc Had.
  destruct (fst (insightUnit remote metrics p c ad)) as [e|r] eqn:Hu;
    [|eapply insightUnit_inr; exact Hu].
  exfalso.
  destruct (paralellize_inl ads (insightUnit remote metrics p c) ad e Had Hu)
    as (ad' & e' & _ & _ & H1).
  assert (H2 : fst (VArr <$> paralellize ads (insightUnit remote metrics p c))
               = inl e').
  { destruct (paralellize ads _) as [[?|?] ?]; cbn in *; congruence. }
  destruct (paralellize_inl (c0 :: cs)
              (fun c => VArr <$> paralellize ads (insightUnit remote metrics p c))
              c e' Hc H2) as (c' & e'' & _ & _ & H3).
  assert (H4 : fst (VArr <$> paralellize (c0 :: cs) (fun c =>
                 VArr <$> paralellize ads (insightUnit remote metrics p c)))
               = inl e'').
  { destruct (paralellize (c0 :: cs) _) as [[?|?] ?]; cbn in *; congruence. }
  destruct (paralellize_inl (p0 :: ps)
              (fun p => VArr <$> paralellize (c0 :: cs) (fun c =>
                 VArr <$> paralellize ads (insightUnit remote metrics p c)))
              p e'' Hp H4) as (p' & e3 & _ & _ & H5).
  unfold fanout in H.
  destruct (paralellize (p0 :: ps) _) as [[?|?] ?]; cbn in *; congruence.
Qed.

End FanoutFacts.

(** ** Records, their keys and their tables *)

Lemma js_join_strings (sep : string) (l : list string) :
  js_join sep (VStr <$> l) = join_with sep l.
Proof.
  unfold js_join. f_equal.
  induction l as [|x l IH]; [reflexivity|]. cbn. f_equal. exact IH.
Qed.

Lemma tableName_insightRecord (acc id : value) (p : string) (bs : list string)
    (rows : list value) :
  tableName (insightRecord acc id p bs rows)
  = inr ("facebook_ads_insights_" +:+ p +:+ "_" +:+ join_with "_" bs).
Proof.
  unfold tableName, insightRecord, str_array. cbn.
  change (map VStr bs) with (VStr <$> bs).
  rewrite js_join_strings. reflexivity.
Qed.

(** The key of a record determines the request it came from. *)
Definition key_of_request (req : value * string * list string)
    : result value * result value * result value :=
  (inr (req.1.1), inr (VStr (req.1.2)), inr (str_array (req.2))).

Lemma key_of_request_inj : Inj (=) (=) key_of_request.
Proof.
  intros [[i1 p1] c1] [[i2 p2] c2]. unfold key_of_request, str_array. cbn.
  intros H. injection H as Hi Hp Hc.
  assert (Hc' : c1 = c2).
  { revert c2 Hc. induction c1 as [|x c1 IH]; intros [|y c2] Hc;
      try discriminate; [reflexivity|].
    cbn in Hc. injection Hc as -> Hc. f_equal. apply IH. exact Hc. }
  congruence.
Qed.

(** The call a request is sent as. *)
Definition requestCall (metrics : list string)
    (req : value * string * list string) : call :=
  Call ("/" +:+ toString (req.1.1) +:+ "/insights")
       (insightsPayload metrics (req.1.2) (req.2)).

(** ** The fan-out: size of the matrix and keys of its records *)

(** C1, as the code has it. When every request of the matrix goes
    through, the fan-out over n ads, p periods and b breakdown
    combinations returns exactly n×p×b records and has issued exactly
    n×p×b calls, one per (ad, period, breakdowns) triple of the matrix.
    The code removes no duplicates: the keys (ad id, period,
    breakdowns) of the records are pairwise distinct, and no triple is
    requested twice, when the ad ids, the periods and the breakdown
    combinations handed to it are themselves pairwise distinct. *)
Theorem fanout_size_and_keys
    (remote : string → value → string + list value) (metrics : list string)
    (periods : list string) (combos : list (list string)) (ads : list value) :
  (∀ p c ad, p ∈ periods → c ∈ combos → ad ∈ ads →
             request_ok remote metrics p c ad) →
  ∃ records calls,
    fanout remote metrics periods combos ads = (inr records, calls) ∧
    length records = length ads * length periods * length combos ∧
    calls = requestCall metrics <$> matrix insightRequest periods combos ads ∧
    length calls = length ads * length periods * length combos ∧
    (NoDup (id_of <$> ads) → NoDup periods → NoDup combos →
     NoDup (record_key <$> records) ∧
     NoDup (matrix insightRequest periods combos ads)).
Proof.
  intros Hok.
  exists (matrix (unitRecord remote metrics) periods combos ads),
         (matrix (insightCall metrics) periods combos ads).
  split; [apply fanout_ok; exact Hok|].
  split; [apply matrix_length|].
  split; [rewrite matrix_fmap; reflexivity|].
  split; [apply matrix_length|].
  intros Hads Hps Hcs.
  pose proof (matrix_requests_NoDup periods combos ads Hads Hps Hcs) as HN.
  split; [|exact HN].
  assert (E : record_key <$> matrix (unitRecord remote metrics) periods combos ads
              = key_of_request <$> matrix insightRequest periods combos ads).
  { rewrite !matrix_fmap. reflexivity. }
  rewrite E. apply NoDup_fmap_2_strong; [|exact HN].
  intros x y _ _. apply key_of_request_inj.
Qed.

(** Sample data for the concrete instances below. *)
Definition sample_ad (id account : string) : value :=
  VObj [("id", VStr id); ("account_id", VStr account)].

Definition sample_metrics : list string := ["impressions"; "clicks"; "spend"].

(** A remote that answers every call with no rows. *)
Definition empty_remote (path : string) (params : value) : string + list value :=
  inr [].

Ltac list_cases H :=
  repeat (apply elem_of_cons in H as [->|H]); [..|inversion H].

Ltac nodup_explicit :=
  repeat (apply NoDup_cons; split;
          [rewrite ?elem_of_cons, elem_of_nil; intuition congruence|]);
  apply NoDup_nil; exact I.

Lemma fanout_size_and_keys_witness :
  ∃ records calls,
    fanout empty_remote sample_metrics (Object_keys PERIODS) BREAKDOWNS
      [sample_ad "1" "act_9"; sample_ad "2" "act_9"] = (inr records, calls) ∧
    length records = 2 * 2 * 2 ∧
    length calls = 2 * 2 * 2 ∧
    NoDup (record_key <$> records) ∧
    NoDup (matrix insightRequest (Object_keys PERIODS) BREAKDOWNS
             [sample_ad "1" "act_9"; sample_ad "2" "act_9"]).
Proof.
  destruct (fanout_size_and_keys empty_remote sample_metrics
              (Object_keys PERIODS) BREAKDOWNS
              [sample_ad "1" "act_9"; sample_ad "2" "act_9"])
    as (records & calls & Hrun & Hlen & _ & Hcalls & Hkeys).
  - intros p c ad _ _ Had.
    list_cases Had; (split; [eexists; reflexivity|eexists; reflexivity]).
  - exists records, calls.
    split; [exact Hrun|]. split; [exact Hlen|]. split; [exact Hcalls|].
    apply Hkeys; cbn; nodup_explicit.
Defined.

(** C1, as stated, fails on a collection that holds the same ad twice:
    the fan-out returns 2×1×1 records, but the two carry the same key
    and the same request was sent twice. *)
Lemma fanout_repeated_ad_repeats_key :
  ∃ records calls,
    fanout empty_remote sample_metrics ["daily"] [["age"; "gender"]]
      [sample_ad "1" "act_9"; sample_ad "1" "act_9"] = (inr records, calls) ∧
    length records = 2 * 1 * 1 ∧
    ¬ NoDup (record_key <$> records) ∧
    ¬ NoDup calls.
Proof.
  eexists _, _. split; [reflexivity|]. split; [reflexivity|].
  split; intros H; apply NoDup_cons in H as [H _]; apply H; left.
Qed.

(** ** Table naming *)

(** C2, as the code has it. The table a record is routed to is named
    [facebook_ads_insights_{period}_{breakdown names joined by
    underscore, in the order given}], which is the name of the
    specification behind the prefix [facebook_]; the name the warehouse
    client is asked for is
    [{project}.facebook_ads_insights.{tableName}], the dataset being the
    fixed [facebook_ads_insights]. The name depends on the period and
    the breakdowns of the record only. *)
Theorem table_name_of_record
    (projectId : string) (Schema Table : Type)
    (schemas : string → option Schema)
    (getTable : string → option Schema → string + Table)
    (insert : Table → value → string + unit)
    (account_id ad_id : value) (period : string) (breakdowns : list string)
    (insights : list value) :
  tableName (insightRecord account_id ad_id period breakdowns insights)
  = inr ("facebook_" +:+ spec_tableName period breakdowns) ∧
  issued (start projectId schemas getTable insert (Loader ∅ [] [] None)
            (insightRecord account_id ad_id period breakdowns insights))
  = [GetTable
       (projectId +:+ "." +:+ "facebook_ads_insights" +:+ "." +:+
          ("facebook_" +:+ spec_tableName period breakdowns))
       (schemas ("facebook_" +:+ spec_tableName period breakdowns))].
Proof.
  assert (E : tableName (insightRecord account_id ad_id period breakdowns insights)
              = inr ("facebook_" +:+ spec_tableName period breakdowns)).
  { rewrite tableName_insightRecord. reflexivity. }
  split; [exact E|].
  unfold start. rewrite E. cbn [tables issued tasks rejection].
  rewrite lookup_empty. reflexivity.
Qed.

(** C2, as stated, fails: the name of the table of a daily record
    broken down by age and gender is not the specification's
    [ads_insights_daily_age_gender]. *)
Lemma table_name_has_facebook_prefix :
  spec_tableName "daily" ["age"; "gender"] = "ads_insights_daily_age_gender" ∧
  tableName (insightRecord (VStr "act_9") (VStr "1") "daily" ["age"; "gender"] [])
  = inr "facebook_ads_insights_daily_age_gender" ∧
  tableName (insightRecord (VStr "act_9") (VStr "1") "daily" ["age"; "gender"] [])
  ≠ inr (spec_tableName "daily" ["age"; "gender"]).
Proof. split; [reflexivity|]. split; [reflexivity|]. discriminate. Qed.

(** ** Account resolution *)

(** With [paralellize] yielding one result per item, every element of
    what the business branch returns is the array of one business's
    accounts: the branch itself merges nothing. *)
Lemma business_accounts_are_arrays
    (remote : string → value → string + list value)
    (accounts : list value) (calls : list call) :
  fetchAdAccounts remote (VStr "business") = (inr accounts, calls) →
  Forall (fun v => is_array v = true) accounts.
Proof.
  unfold fetchAdAccounts.
  change (strict_eq_str (VStr "business") (const_prop "personal" AD_ACCOUNT_SOURCES))
    with false.
  change (strict_eq_str (VStr "business") (const_prop "business" AD_ACCOUNT_SOURCES))
    with true.
  cbv iota.
  destruct (fetchGraphApi remote "/me/businesses" VUndefined)
    as [[e|businesses] w] eqn:Hb.
  { rewrite (bind_inl _ _ e w) by reflexivity. discriminate. }
  rewrite (bind_inr _ _ businesses w) by reflexivity.
  destruct (paralellize businesses _) as [[e|ys] w'] eqn:Hp; cbn; [discriminate|].
  intros H. injection H as <- _.
  apply paralellize_inr in Hp as [HF _].
  clear Hb. induction HF as [|b y bs ys Hy _ IH]; constructor; [|exact IH].
  destruct (get_prop "id" b) as [e|id]; cbn in Hy; [discriminate|].
  destruct (remote _ _); cbn in Hy; [discriminate|].
  injection Hy as <-. reflexivity.
Qed.

(** The call that lists the ad accounts a business owns, and its rows. *)
Definition ownedAccountsCall (business : value) : call :=
  Call ("/" +:+ toString (id_of business) +:+ "/owned_ad_accounts") VUndefined.

Definition ownedAccounts (remote : string → value → string + list value)
    (business : value) : list value :=
  match remote (call_path (ownedAccountsCall business)) VUndefined with
  | inr rows => rows
  | inl _ => []
  end.

(** When the listings go through, the business branch makes one call
    for the businesses and one call per business, and returns one array
    of accounts per business. *)
Lemma business_branch_ok
    (remote : string → value → string + list value) (businesses : list value) :
  remote "/me/businesses" VUndefined = inr businesses →
  (∀ b, b ∈ businesses →
        (∃ v, get_prop "id" b = inr v) ∧
        ∃ rows, remote (call_path (ownedAccountsCall b)) VUndefined = inr rows) →
  fetchAdAccounts remote (VStr "business")
  = (inr ((fun b => VArr (ownedAccounts remote b)) <$> businesses),
     Call "/me/businesses" VUndefined :: (ownedAccountsCall <$> businesses)).
Proof.
  intros Hb Hok. unfold fetchAdAccounts.
  change (strict_eq_str (VStr "business") (const_prop "personal" AD_ACCOUNT_SOURCES))
    with false.
  change (strict_eq_str (VStr "business") (const_prop "business" AD_ACCOUNT_SOURCES))
    with true.
  cbv iota.
  rewrite (bind_inr _ _ businesses [Call "/me/businesses" VUndefined])
    by (unfold fetchGraphApi; rewrite Hb; reflexivity).
  rewrite (paralellize_ok businesses _
             (fun b => VArr (ownedAccounts remote b))
             (fun b => [ownedAccountsCall b])).
  - cbn [fst snd]. rewrite bind_fmap_singleton. reflexivity.
  - intros b Hin. destruct (Hok b Hin) as [[v Hv] [rows Hrows]].
    unfold ownedAccounts, ownedAccountsCall, fetchGraphApi, id_of in *.
    cbn [call_path] in *. rewrite Hv in *. cbn. rewrite Hrows. reflexivity.
Qed.

(** A user in two businesses that own one ad account each. *)
Definition two_business_remote (path : string) (params : value)
    : string + list value :=
  if String.eqb path "/me/businesses" then
    inr [VObj [("id", VStr "b1")]; VObj [("id", VStr "b2")]]
  else if String.eqb path "/b1/owned_ad_accounts" then
    inr [VObj [("id", VStr "act_1")]]
  else if String.eqb path "/b2/owned_ad_accounts" then
    inr [VObj [("id", VStr "act_2")]]
  else inr [].

(** With a [paralellize] that yields one result per item, and two
    businesses owning one account each, the business branch makes one
    call for the businesses and one per business and returns the two
    per-business arrays as [paralellize] yields them: the branch itself
    applies no [.flat()], unlike the listing of ads. What the branch
    returns is thus decided by [paralellize]. *)
Theorem business_accounts_not_flattened :
  fetchAdAccounts two_business_remote (VStr "business")
  = (inr [VArr [VObj [("id", VStr "act_1")]]; VArr [VObj [("id", VStr "act_2")]]],
     [Call "/me/businesses" VUndefined;
      Call "/b1/owned_ad_accounts" VUndefined;
      Call "/b2/owned_ad_accounts" VUndefined]) ∧
  fst (fetchAdAccounts two_business_remote (VStr "business"))
  ≠ inr [VObj [("id", VStr "act_1")]; VObj [("id", VStr "act_2")]] ∧
  call_path <$> snd (fetchAds two_business_remote
      [VArr [VObj [("id", VStr "act_1")]]; VArr [VObj [("id", VStr "act_2")]]])
  = ["/undefined/ads"; "/undefined/ads"].
Proof. split; [reflexivity|]. split; [discriminate|reflexivity]. Qed.

(** C6. A source that is neither of the two defined values makes the
    resolution throw the unknown-source error, with no call issued. *)
Theorem unknown_source_throws
    (remote : string → value → string + list value) (source : value) :
  source ≠ VStr "personal" → source ≠ VStr "business" →
  fetchAdAccounts remote source
  = (inl (Thrown ("Unknown ad accounts source " +:+ toString source)), []).
Proof.
  intros Hp Hb. unfold fetchAdAccounts.
  destruct source; try reflexivity.
  cbn [strict_eq_str].
  change (const_prop "personal" AD_ACCOUNT_SOURCES) with "personal".
  change (const_prop "business" AD_ACCOUNT_SOURCES) with "business".
  destruct (String.eqb s "personal") eqn:E1.
  { apply String.eqb_eq in E1. congruence. }
  destruct (String.eqb s "business") eqn:E2.
  { apply String.eqb_eq in E2. congruence. }
  reflexivity.
Qed.

Lemma unknown_source_throws_witness :
  fetchAdAccounts two_business_remote (VStr "page")
  = (inl (Thrown "Unknown ad accounts source page"), []).
Proof.
  apply (unknown_source_throws two_business_remote (VStr "page")); discriminate.
Defined.

(** ** The insights call *)

Definition params_of (v : value) : list (string * value) :=
  match v with VObj fields => fields | _ => [] end.

(** C4. The insights call of a fan-out element goes to
    [/{adId}/insights] with the full metric list as [fields] and the
    element's breakdown dimensions as [breakdowns]; it carries
    [time_increment], equal to 1, exactly when the period is [daily],
    and no [time_increment] at all for any other period, [lifetime]
    included. *)
Theorem insights_call_parameters
    (remote : string → value → string + list value) (metrics : list string)
    (adId : value) (period : string) (breakdowns : list string) :
  snd (fetchAdInsights remote metrics adId period breakdowns)
  = [Call ("/" +:+ toString adId +:+ "/insights")
          (insightsPayload metrics period breakdowns)] ∧
  (∀ fields, snd (insightUnit remote metrics period breakdowns (VObj fields))
             = snd (fetchAdInsights remote metrics (id_of (VObj fields))
                      period breakdowns)) ∧
  assoc "fields" (params_of (insightsPayload metrics period breakdowns))
  = Some (str_array metrics) ∧
  assoc "breakdowns" (params_of (insightsPayload metrics period breakdowns))
  = Some (str_array breakdowns) ∧
  assoc "time_increment" (params_of (insightsPayload metrics period breakdowns))
  = (if String.eqb period "daily" then Some (VNum 1) else None) ∧
  (assoc "time_increment" (params_of (insightsPayload metrics period breakdowns))
   = Some (VNum 1) ↔ period = "daily") ∧
  assoc "time_increment" (params_of (insightsPayload metrics "lifetime" breakdowns))
  = None.
Proof.
  split; [reflexivity|].
  split.
  { intros fields.
    unfold insightUnit, fetchAdInsights, fetchGraphApi, id_of. cbn.
    destruct (remote _ _); reflexivity. }
  unfold insightsPayload.
  change (const_prop "daily" PERIODS) with "daily".
  destruct (String.eqb period "daily") eqn:E; cbn;
    (split; [reflexivity|]); (split; [reflexivity|]); (split; [reflexivity|]);
    (split; [|reflexivity]).
  - apply String.eqb_eq in E. split; intros _; [exact E|reflexivity].
  - apply String.eqb_neq in E. split; [discriminate|intros H; contradiction].
Qed.

(** ** Failure of the fan-out *)



Section FanoutFailure.

Variable remote : string → value → string + list value.
Variable metrics : list string.


Lemma insightUnit_fails (p : string) (c : list string) (ad : value)
    (cause : string) :
  remote (call_path (insightCall metrics p c ad))
         (call_params (insightCall metrics p c ad)) = inl cause →
  ∃ e, fst (insightUnit remote metrics p c ad) = inl e.
Proof.
  unfold insightUnit, fetchAdInsights, fetchGraphApi, insightCall, id_of.
  destruct ad; cbn; intros H; rewrite ?H; eauto.
Qed.

End FanoutFailure.






(** ** The configured dimensions *)

Lemma fmap_app_bind_perm {A B : Type} (f : A → B) (g : A → list B) (l : list A) :
  (f <$> l) ++ (l ≫= g) ≡ₚ l ≫= (fun x => f x :: g x).
Proof.
  induction l as [|x l IH]; [reflexivity|].
  rewrite fmap_cons, !bind_cons. cbn. constructor.
  rewrite <- IH, !(assoc_L (++)).
  apply Permutation_app_tail, Permutation_app_comm.
Qed.

(** The four tables of the configured periods and breakdowns. *)
Definition configured_tables : list string :=
  ["facebook_ads_insights_daily_age_gender";
   "facebook_ads_insights_daily_country_region";
   "facebook_ads_insights_lifetime_age_gender";
   "facebook_ads_insights_lifetime_country_region"].

(** The four insight requests of one ad. *)
Definition calls_of_ad (metrics : list string) (ad : value) : list call :=
  [insightCall metrics "daily" ["age"; "gender"] ad;
   insightCall metrics "daily" ["country"; "region"] ad;
   insightCall metrics "lifetime" ["age"; "gender"] ad;
   insightCall metrics "lifetime" ["country"; "region"] ad].

(** C10. The periods the script fans out over are exactly [daily] and
    [lifetime], the breakdown combinations exactly [age, gender] and
    [country, region]. So a run whose fan-out returned has issued, for
    every ad, exactly the four insight requests of that ad, 4×n in all,
    and each of its records is routed to one of four tables. *)
Theorem configured_fanout_dimensions
    (remote : string → value → string + list value) (metrics : list string)
    (ads records : list value) (calls : list call) :
  brokenDownInsights remote metrics ads = (inr records, calls) →
  Object_keys PERIODS = ["daily"; "lifetime"] ∧
  BREAKDOWNS = [["age"; "gender"]; ["country"; "region"]] ∧
  calls ≡ₚ ads ≫= calls_of_ad metrics ∧
  length calls = 4 * length ads ∧
  length records = 4 * length ads ∧
  Forall (fun r => ∃ name, tableName r = inr name ∧ name ∈ configured_tables)
         records.
Proof.
  intros Hrun. split; [reflexivity|]. split; [reflexivity|].
  unfold brokenDownInsights in Hrun.
  pose proof (fanout_inr _ _ _ _ _ _ _ Hrun) as [H|[H|Hok]]; try discriminate.
  rewrite (fanout_ok _ _ _ _ _ Hok) in Hrun.
  assert (Hrecords : records
            = matrix (unitRecord remote metrics) (Object_keys PERIODS) BREAKDOWNS ads)
    by congruence.
  assert (Hcalls : calls
            = matrix (insightCall metrics) (Object_keys PERIODS) BREAKDOWNS ads)
    by congruence.
  clear Hrun. subst records calls.
  split; [|split; [|split]].
  - unfold matrix, calls_of_ad.
    change (Object_keys PERIODS) with ["daily"; "lifetime"]. unfold BREAKDOWNS.
    repeat rewrite bind_cons.
    change (@nil string ≫= _) with (@nil call).
    change (@nil (list string) ≫= _) with (@nil call).
    rewrite !app_nil_r, <- !(assoc_L (++)).
    rewrite <- (fmap_app_bind_perm (insightCall metrics "daily" ["age"; "gender"])).
    apply Permutation_app_head.
    rewrite <- (fmap_app_bind_perm (insightCall metrics "daily" ["country"; "region"])).
    apply Permutation_app_head.
    rewrite <- (fmap_app_bind_perm (insightCall metrics "lifetime" ["age"; "gender"])).
    apply Permutation_app_head.
    rewrite bind_fmap_singleton. reflexivity.
  - rewrite matrix_length. cbn. lia.
  - rewrite matrix_length. cbn. lia.
  - apply Forall_forall. intros r Hr.
    apply elem_of_matrix in Hr as (p & c & ad & Hp & Hc & _ & ->).
    unfold unitRecord. rewrite tableName_insightRecord.
    eexists; split; [reflexivity|].
    cbn in Hp, Hc. unfold configured_tables.
    list_cases Hp; list_cases Hc; cbn; set_solver.
Qed.

Lemma configured_fanout_dimensions_witness :
  Object_keys PERIODS = ["daily"; "lifetime"] ∧
  BREAKDOWNS = [["age"; "gender"]; ["country"; "region"]] ∧
  snd (brokenDownInsights empty_remote sample_metrics
         [sample_ad "1" "act_9"; sample_ad "2" "act_9"])
    ≡ₚ [sample_ad "1" "act_9"; sample_ad "2" "act_9"] ≫= calls_of_ad sample_metrics ∧
  length (snd (brokenDownInsights empty_remote sample_metrics
                 [sample_ad "1" "act_9"; sample_ad "2" "act_9"])) = 4 * 2.
Proof.
  destruct (brokenDownInsights empty_remote sample_metrics
              [sample_ad "1" "act_9"; sample_ad "2" "act_9"])
    as [[e|records] calls] eqn:Hrun; [discriminate|].
  destruct (configured_fanout_dimensions empty_remote sample_metrics
              [sample_ad "1" "act_9"; sample_ad "2" "act_9"] records calls Hrun)
    as (Hp & Hb & Hperm & Hlen & _ & _).
  split; [exact Hp|]. split; [exact Hb|]. split; [exact Hperm|exact Hlen].
Defined.

(** ** The warehouse load: what is issued, and when *)

Section LoadFacts.

Variable projectId : string.
Variables Schema Table : Type.
Variable schemas : string → option Schema.
Variable getTable : string → option Schema → string + Table.
Variable insert : Table → value → string + unit.

#[local] Abbreviation start' := (start projectId schemas getTable insert).
#[local] Abbreviation load_start' := (load_start projectId schemas getTable insert).

(** The callback of a record, started while the cache is empty. *)
Definition started_task (data : value) : task Table :=
  match tableName data with
  | inl e => Rejected e
  | inr name =>
      AwaitGetTable name data
        (getTable (fullyQualifiedTableName projectId name) (schemas name))
  end.

Definition started_calls (data : value) : list (wcall Schema Table) :=
  match tableName data with
  | inl e => []
  | inr name =>
      [GetTable (fullyQualifiedTableName projectId name) (schemas name)]
  end.

Lemma start_empty_cache (st : loader Schema Table) (data : value) :
  tables st = ∅ →
  tables (start' st data) = ∅ ∧
  tasks (start' st data) = tasks st ++ [started_task data] ∧
  issued (start' st data) = issued st ++ started_calls data.
Proof.
  intros Hempty. unfold start, started_task, started_calls.
  destruct (tableName data) as [e|name]; cbn.
  - rewrite app_nil_r. auto.
  - rewrite Hempty, lookup_empty. cbn. auto.
Qed.

Lemma fold_start_empty_cache (records : list value) (st : loader Schema Table) :
  tables st = ∅ →
  tables (fold_left start' records st) = ∅ ∧
  tasks (fold_left start' records st) = tasks st ++ (started_task <$> records) ∧
  issued (fold_left start' records st) = issued st ++ (records ≫= started_calls).
Proof.
  revert st. induction records as [|d records IH]; intros st Hempty.
  - cbn. rewrite !app_nil_r. auto.
  - destruct (start_empty_cache st d Hempty) as (Ht & Hk & Hi).
    destruct (IH (start' st d) Ht) as (Ht' & Hk' & Hi').
    cbn [fold_left]. rewrite Ht', Hk', Hi', Hk, Hi, <- !(assoc_L (++)).
    auto.
Qed.

(** While [.map] runs no callback has stored a handle yet: every
    record finds the cache empty. *)
Lemma load_start_shape (records : list value) :
  tables (load_start' records) = ∅ ∧
  tasks (load_start' records) = started_task <$> records ∧
  issued (load_start' records) = records ≫= started_calls.
Proof. apply (fold_start_empty_cache records (Loader ∅ [] [] None)). reflexivity. Qed.

Lemma filter_getTable_app_insert (l : list (wcall Schema Table)) (t : Table) (d : value) :
  filter (fun c => is_getTable c = true) (l ++ [Insert (Schema := Schema) t d])
  = filter (fun c => is_getTable c = true) l.
Proof.
  rewrite filter_app.
  rewrite (filter_cons_False _ _ []) by (cbn; discriminate).
  rewrite filter_nil, app_nil_r. reflexivity.
Qed.

(** Resuming a callback never asks for a table. *)
Lemma resume_getTable_calls (st : loader Schema Table) (i : nat) :
  getTable_calls (resume insert st i) = getTable_calls (Schema := Schema) st.
Proof.
  unfold resume, getTable_calls.
  destruct (tasks st !! i) as [[name d [c|t]|[c|[]]| |e]|]; try reflexivity.
  rewrite lookup_insert_eq. cbn. apply filter_getTable_app_insert.
Qed.

Lemma run_getTable_calls (schedule : list nat) (st : loader Schema Table) :
  getTable_calls (run insert schedule st) = getTable_calls (Schema := Schema) st.
Proof.
  revert st. induction schedule as [|i schedule IH]; intros st; [reflexivity|].
  cbn. unfold run in IH. rewrite IH. apply resume_getTable_calls.
Qed.

Lemma started_calls_getTable (records : list value) :
  filter (fun c => is_getTable c = true) (records ≫= started_calls)
  = records ≫= started_calls.
Proof.
  induction records as [|d records IH]; [reflexivity|].
  rewrite bind_cons, filter_app, IH. f_equal.
  unfold started_calls. destruct (tableName d); [reflexivity|].
  rewrite filter_cons_True by reflexivity. reflexivity.
Qed.

(** Whatever the order in which the callbacks are resumed, the
    tables asked for are those of the records, one call per record. *)
Lemma load_getTable_calls (records : list value) (schedule : list nat) :
  getTable_calls (run insert schedule (load_start' records))
  = records ≫= started_calls.
Proof.
  rewrite run_getTable_calls. unfold getTable_calls.
  destruct (load_start_shape records) as (_ & _ & ->).
  apply started_calls_getTable.
Qed.

End LoadFacts.

Arguments started_task projectId {Schema Table} schemas getTable data.
Arguments started_calls projectId {Schema Table} schemas data.

Lemma fold_left_invariant {A B : Type} (f : A → B → A) (P : A → Prop)
    (l : list B) (a : A) :
  P a → (∀ a' b, b ∈ l → P a' → P (f a' b)) → P (fold_left f l a).
Proof.
  revert a. induction l as [|b l IH]; intros a Ha Hstep; [exact Ha|].
  cbn. apply IH.
  - apply Hstep; [left|exact Ha].
  - intros a' b' Hb'. apply Hstep. right. exact Hb'.
Qed.

(** ** The warehouse load: how it settles *)

Section LoadOutcome.

Variable projectId : string.
Variables Schema Table : Type.
Variable schemas : string → option Schema.
Variable getTable : string → option Schema → string + Table.
Variable insert : Table → value → string + unit.

#[local] Abbreviation load_start' := (load_start projectId schemas getTable insert).

(** An error that the warehouse client returned for some call. *)
Definition client_error (e : error) : Prop :=
  ∃ cause, e = RemoteError cause ∧
           ((∃ name schema, getTable name schema = inl cause) ∨
            (∃ table data, insert table data = inl cause)).

(** What a suspended callback awaits is the outcome of a call to the
    warehouse client. *)
Definition awaits_client (t : task Table) : Prop :=
  match t with
  | AwaitGetTable _ _ pending => ∃ name schema, pending = getTable name schema
  | AwaitInsert pending => ∃ table data, pending = insert table data
  | _ => True
  end.

Definition rejection_explained (records : list value)
    (st : loader Schema Table) : Prop :=
  Forall awaits_client (tasks st) ∧
  ∀ e, rejection st = Some e →
       (∃ d, d ∈ records ∧ tableName d = inl e) ∨ client_error e.

Lemma start_explained (records : list value) (st : loader Schema Table)
    (d : value) :
  d ∈ records → rejection_explained records st →
  rejection_explained records (start projectId schemas getTable insert st d).
Proof.
  intros Hd [Ht Hr]. unfold start.
  destruct (tableName d) as [e|name] eqn:Hn; [|destruct (tables st !! name)];
    (split; cbn; [apply Forall_app; split; [exact Ht|]|]).
  - repeat constructor.
  - intros e'. destruct (rejection st) as [e0|]; [apply Hr|].
    intros [= <-]. left. eauto.
  - repeat constructor. cbn. eauto.
  - exact Hr.
  - repeat constructor. cbn. eauto.
  - exact Hr.
Qed.

Lemma settle_explained (records : list value) (st : loader Schema Table)
    (i : nat) (t : task Table) :
  rejection_explained records st → awaits_client t →
  (∀ e, t = Rejected e → client_error e) →
  rejection_explained records (settle i t st).
Proof.
  intros [Ht Hr] Hc He. split; cbn.
  - apply Forall_insert; assumption.
  - intros e. destruct t as [n d p|p| |e1]; try apply Hr.
    destruct (rejection st) as [e2|]; [apply Hr|].
    intros [= <-]. right. apply He. reflexivity.
Qed.

Lemma resume_explained (records : list value) (st : loader Schema Table)
    (i : nat) :
  rejection_explained records st →
  rejection_explained records (resume insert st i).
Proof.
  intros Hinv. pose proof Hinv as [Ht Hr]. unfold resume.
  destruct (tasks st !! i) as [t|] eqn:Hi; [|exact Hinv].
  pose proof (Forall_lookup_1 _ _ _ _ Ht Hi) as Hc.
  destruct t as [name d [cause|table]|[cause|[]]| |e]; cbn in Hc.
  - destruct Hc as (n & s & Hc).
    apply settle_explained; [exact Hinv|exact I|].
    intros e [= <-]. exists cause. split; [reflexivity|]. left. eauto.
  - rewrite lookup_insert_eq. split; cbn; [|exact Hr].
    apply Forall_insert; [exact Ht|]. cbn. eauto.
  - destruct Hc as (t & d & Hc).
    apply settle_explained; [exact Hinv|exact I|].
    intros e [= <-]. exists cause. split; [reflexivity|]. right. eauto.
  - apply settle_explained; [exact Hinv|exact I|discriminate].
  - exact Hinv.
  - exact Hinv.
Qed.

(** Whatever the schedule, a load is only ever rejected with the type
    error of a record whose period or breakdowns cannot be read, or
    with an error the warehouse client returned. *)
Lemma load_rejection_explained (records : list value) (schedule : list nat)
    (e : error) :
  rejection (run insert schedule (load_start' records)) = Some e →
  (∃ d, d ∈ records ∧ tableName d = inl e) ∨ client_error e.
Proof.
  assert (Hinv : rejection_explained records
                   (run insert schedule (load_start' records))).
  { unfold run. apply fold_left_invariant.
    - unfold load_start. apply fold_left_invariant.
      + split; [constructor|discriminate].
      + intros st d Hd. apply start_explained. exact Hd.
    - intros st i _. apply resume_explained. }
  apply Hinv.
Qed.

End LoadOutcome.

Arguments client_error {Schema Table} getTable insert e.
Arguments awaits_client {Schema Table} getTable insert t.
Arguments rejection_explained {Schema Table} getTable insert records st.

Section LoadCompletion.

Variable projectId : string.
Variables Schema Table : Type.
Variable schemas : string → option Schema.
Variable getTable : string → option Schema → string + Table.
Variable insert : Table → value → string + unit.

(** What resuming does to the callback that is resumed. *)
Definition resumed (t : task Table) : task Table :=
  match t with
  | AwaitGetTable _ data (inr table) => AwaitInsert (insert table data)
  | AwaitGetTable _ _ (inl cause) => Rejected (RemoteError cause)
  | AwaitInsert (inr _) => Resolved
  | AwaitInsert (inl cause) => Rejected (RemoteError cause)
  | Resolved => Resolved
  | Rejected e => Rejected e
  end.

Lemma resume_tasks (st : loader Schema Table) (i : nat) (t : task Table) :
  tasks st !! i = Some t →
  tasks (resume insert st i) = <[i := resumed t]> (tasks st).
Proof.
  intros Hi. unfold resume. rewrite Hi.
  destruct t as [name d [cause|table]|[cause|[]]| |e]; cbn; try reflexivity.
  - rewrite lookup_insert_eq. reflexivity.
  - symmetry. apply list_insert_id. exact Hi.
  - symmetry. apply list_insert_id. exact Hi.
Qed.

(** One pass of the schedule over callbacks [l2], behind [l1]. *)
Lemma pass_tasks (l2 l1 : list (task Table)) (st : loader Schema Table) :
  tasks st = l1 ++ l2 →
  tasks (run insert (seq (length l1) (length l2)) st) = l1 ++ (resumed <$> l2).
Proof.
  revert l1 st. induction l2 as [|t l2 IH]; intros l1 st Hst; [exact Hst|].
  cbn [length seq run fold_left].
  assert (Hi : tasks st !! length l1 = Some t).
  { rewrite Hst. apply list_lookup_middle. reflexivity. }
  pose proof (resume_tasks st (length l1) t Hi) as Hr.
  rewrite Hst in Hr.
  replace (length l1) with (length l1 + 0) in Hr at 2 by lia.
  rewrite insert_app_r in Hr. cbn in Hr.
  specialize (IH (l1 ++ [resumed t]) (resume insert st (length l1))).
  rewrite length_app in IH. cbn [length] in IH.
  replace (length l1 + 1) with (S (length l1)) in IH by lia.
  unfold run in IH. rewrite IH.
  - rewrite <- (assoc_L (++)). reflexivity.
  - rewrite Hr, <- (assoc_L (++)). reflexivity.
Qed.

Lemma load_tasks (records : list value) :
  tasks (load projectId schemas getTable insert records)
  = (fun d => resumed (resumed (started_task projectId schemas getTable d)))
      <$> records.
Proof.
  unfold load, full_schedule, run. rewrite fold_left_app.
  destruct (load_start_shape projectId Schema Table schemas getTable insert records)
    as (_ & Hk & _).
  set (st0 := load_start projectId schemas getTable insert records) in *.
  pose proof (pass_tasks (tasks st0) [] st0 eq_refl) as H1.
  cbn [length app] in H1.
  assert (Hlen : length records = length (tasks st0))
    by (rewrite Hk, length_fmap; reflexivity).
  rewrite Hlen.
  set (st1 := fold_left (resume insert) (seq 0 (length (tasks st0))) st0) in *.
  unfold run in H1. fold st1 in H1.
  pose proof (pass_tasks (tasks st1) [] st1 eq_refl) as H2.
  cbn [length app] in H2.
  assert (Hlen1 : length (tasks st0) = length (tasks st1))
    by (rewrite H1, length_fmap; reflexivity).
  rewrite Hlen1. unfold run in H2. rewrite H2, H1, Hk.
  rewrite <- !list_fmap_compose. reflexivity.
Qed.

(** As long as nothing was rejected, no callback is rejected. *)
Definition no_silent_rejection (st : loader Schema Table) : Prop :=
  rejection st = None → Forall (fun t => ∀ e, t ≠ Rejected e) (tasks st).

Lemma start_no_silent_rejection (st : loader Schema Table) (d : value) :
  no_silent_rejection st →
  no_silent_rejection (start projectId schemas getTable insert st d).
Proof.
  unfold no_silent_rejection, start. intros Hinv.
  destruct (tableName d) as [e|name]; [|destruct (tables st !! name)]; cbn.
  - destruct (rejection st); discriminate.
  - intros Hr. apply Forall_app. split; [auto|]. repeat constructor. discriminate.
  - intros Hr. apply Forall_app. split; [auto|]. repeat constructor. discriminate.
Qed.

Lemma resume_no_silent_rejection (st : loader Schema Table) (i : nat) :
  no_silent_rejection st → no_silent_rejection (resume insert st i).
Proof.
  unfold no_silent_rejection, resume. intros Hinv.
  destruct (tasks st !! i) as [[name d [cause|table]|[cause|[]]| |e]|];
    try exact Hinv; cbn.
  - destruct (rejection st); discriminate.
  - rewrite lookup_insert_eq. cbn. intros Hr.
    apply Forall_insert; [auto|discriminate].
  - destruct (rejection st); discriminate.
  - intros Hr. apply Forall_insert; [auto|discriminate].
Qed.

Lemma load_no_silent_rejection (records : list value) :
  no_silent_rejection (load projectId schemas getTable insert records).
Proof.
  unfold load, run. apply fold_left_invariant.
  - unfold load_start. apply fold_left_invariant.
    + intros _. constructor.
    + intros st d _. apply start_no_silent_rejection.
  - intros st i _. apply resume_no_silent_rejection.
Qed.

(** Resumed twice, a callback has settled. *)
Lemma resumed_twice_settled (d : value) :
  let t := resumed (resumed (started_task projectId schemas getTable d)) in
  t = Resolved ∨ ∃ e, t = Rejected e.
Proof.
  unfold started_task.
  destruct (tableName d) as [e|name]; cbn; [eauto|].
  destruct (getTable _ _) as [cause|table]; cbn; [eauto|].
  destruct (insert table d) as [cause|[]]; cbn; eauto.
Qed.

(** The load settles: once every callback has been resumed for its
    table and for its insert, [Promise.all] has resolved or rejected. *)
Lemma load_settles (records : list value) :
  ∃ r, outcome (load projectId schemas getTable insert records) = Some r.
Proof.
  unfold outcome.
  pose proof (load_no_silent_rejection records) as Hns.
  destruct (rejection (load projectId schemas getTable insert records))
    as [e|] eqn:Hrej; [eauto|].
  specialize (Hns Hrej). rewrite load_tasks in Hns |- *.
  assert (Hall : forallb is_resolved
            ((fun d => resumed (resumed (started_task projectId schemas getTable d)))
               <$> records) = true).
  { clear Hrej. induction records as [|d records IH]; [reflexivity|].
    rewrite fmap_cons in Hns |- *. apply Forall_cons in Hns as [Hd Hns].
    cbn [forallb]. rewrite (IH Hns), andb_true_r.
    destruct (resumed_twice_settled d) as [->|[e He]]; [reflexivity|].
    exfalso. exact (Hd e He). }
  rewrite Hall. eauto.
Qed.

End LoadCompletion.

Arguments resumed {Table} insert t.
Arguments no_silent_rejection {Schema Table} st.

(** ** The warehouse load: schemas, table creation and calls in flight *)

(** A warehouse without any registered schema whose client accepts
    every call; a table handle is the name it was asked for. *)
Definition no_schemas (name : string) : option unit := None.

Definition accepting_getTable (name : string) (schema : option unit)
    : string + string := inr name.

Definition accepting_insert (table : string) (data : value) : string + unit :=
  inr tt.

Definition sample_record (ad_id : string) : value :=
  insightRecord (VStr "act_9") (VStr ad_id) "daily" ["age"; "gender"] [].

(** C5, as stated, fails: with no schema registered for the table of
    the record, the load asks for the table without a schema, inserts
    the record and succeeds. *)
Lemma load_without_schema_succeeds :
  tableName (sample_record "1") = inr "facebook_ads_insights_daily_age_gender" ∧
  no_schemas "facebook_ads_insights_daily_age_gender" = None ∧
  issued (load "proj" no_schemas accepting_getTable accepting_insert
            [sample_record "1"])
  = [GetTable "proj.facebook_ads_insights.facebook_ads_insights_daily_age_gender"
       None;
     Insert "proj.facebook_ads_insights.facebook_ads_insights_daily_age_gender"
       (sample_record "1")] ∧
  outcome (load "proj" no_schemas accepting_getTable accepting_insert
             [sample_record "1"]) = Some (inr tt).
Proof. repeat split; vm_compute; reflexivity. Qed.

(** C8 on the code. Records destined for the same table, none of which
    found it in the cache: whatever the order in which the callbacks are
    resumed, the load has asked the warehouse client for that table once
    per record, not once. Every callback reads the cache before any
    callback has written to it, because the write comes after the
    [await] of [getTable]. *)
Theorem same_table_requested_per_record
    (projectId : string) (Schema Table : Type)
    (schemas : string → option Schema)
    (getTable : string → option Schema → string + Table)
    (insert : Table → value → string + unit)
    (records : list value) (name : string) (schedule : list nat) :
  (∀ d, d ∈ records → tableName d = inr name) →
  getTable_calls (run insert schedule
                    (load_start projectId schemas getTable insert records))
  = replicate (length records)
      (GetTable (fullyQualifiedTableName projectId name) (schemas name)).
Proof.
  intros Hsame. rewrite load_getTable_calls.
  induction records as [|d records IH]; [reflexivity|].
  rewrite bind_cons, IH by (intros d' Hd'; apply Hsame; right; exact Hd').
  unfold started_calls. rewrite (Hsame d) by left. reflexivity.
Qed.

Lemma same_table_requested_per_record_witness :
  getTable_calls (load "proj" no_schemas accepting_getTable accepting_insert
                    [sample_record "1"; sample_record "2"])
  = [GetTable "proj.facebook_ads_insights.facebook_ads_insights_daily_age_gender"
       None;
     GetTable "proj.facebook_ads_insights.facebook_ads_insights_daily_age_gender"
       None].
Proof.
  apply (same_table_requested_per_record "proj" unit string no_schemas
           accepting_getTable accepting_insert
           [sample_record "1"; sample_record "2"]
           "facebook_ads_insights_daily_age_gender" (full_schedule 2)).
  intros d Hd. list_cases Hd; reflexivity.
Defined.

(** The whole load of two records of one table: two [getTable] calls
    are issued before either insert. *)
Example load_two_records_of_one_table :
  issued (load "proj" no_schemas accepting_getTable accepting_insert
            [sample_record "1"; sample_record "2"])
  = [GetTable "proj.facebook_ads_insights.facebook_ads_insights_daily_age_gender"
       None;
     GetTable "proj.facebook_ads_insights.facebook_ads_insights_daily_age_gender"
       None;
     Insert "proj.facebook_ads_insights.facebook_ads_insights_daily_age_gender"
       (sample_record "1");
     Insert "proj.facebook_ads_insights.facebook_ads_insights_daily_age_gender"
       (sample_record "2")].
Proof. vm_compute. reflexivity. Qed.

(** Started on an empty cache, the callback of every record that has
    a table name is suspended at its [getTable] call. *)
Lemma started_tasks_awaiting
    (projectId : string) (Schema Table : Type)
    (schemas : string → option Schema)
    (getTable : string → option Schema → string + Table)
    (records : list value) :
  (∀ d, d ∈ records → ∃ name, tableName d = inr name) →
  length (filter (fun t => is_awaiting t = true)
            (started_task projectId schemas getTable <$> records))
  = length records ∧
  length (records ≫= started_calls (Table := Table) projectId schemas)
  = length records.
Proof.
  intros Hroutes.
  induction records as [|d records IH]; [split; reflexivity|].
  destruct IH as [IH1 IH2]; [intros d' Hd'; apply Hroutes; right; exact Hd'|].
  destruct (Hroutes d) as [name Hname]; [left|].
  rewrite fmap_cons, bind_cons, length_app.
  unfold started_task at 1, started_calls at 1. rewrite Hname.
  rewrite filter_cons_True by reflexivity.
  cbn [length]. rewrite IH1, IH2. split; reflexivity.
Qed.

(** No limit caps the calls of the load that are in flight. *)
Lemma load_in_flight_exceeds_any_limit (limit : nat) :
  limit < in_flight (load_start "proj" no_schemas accepting_getTable
                       accepting_insert (replicate (S limit) (sample_record "1"))).
Proof.
  unfold in_flight.
  destruct (load_start_shape "proj" unit string no_schemas accepting_getTable
              accepting_insert (replicate (S limit) (sample_record "1")))
    as (_ & -> & _).
  destruct (started_tasks_awaiting "proj" unit string no_schemas
              accepting_getTable (replicate (S limit) (sample_record "1")))
    as [H _].
  { intros d Hd. apply elem_of_replicate in Hd as [-> _].
    eexists. reflexivity. }
  rewrite H, length_replicate. lia.
Qed.

(** C9 on the code. The per-record insertion does not go through
    [paralellize]: [Promise.all] over [.map] starts the callback of
    every record before any of them is resumed, so the load has as many
    warehouse calls in flight as there are records, above any limit. *)
Theorem load_starts_every_record_at_once
    (projectId : string) (Schema Table : Type)
    (schemas : string → option Schema)
    (getTable : string → option Schema → string + Table)
    (insert : Table → value → string + unit)
    (records : list value) :
  (∀ d, d ∈ records → ∃ name, tableName d = inr name) →
  in_flight (load_start projectId schemas getTable insert records)
  = length records ∧
  length (issued (load_start projectId schemas getTable insert records))
  = length records.
Proof.
  intros Hroutes.
  destruct (load_start_shape projectId Schema Table schemas getTable insert records)
    as (_ & Hk & Hi).
  unfold in_flight. rewrite Hk, Hi.
  apply started_tasks_awaiting. exact Hroutes.
Qed.

Lemma load_starts_every_record_at_once_witness :
  in_flight (load_start "proj" no_schemas accepting_getTable accepting_insert
               [sample_record "1"; sample_record "2"; sample_record "3"]) = 3 ∧
  length (issued (load_start "proj" no_schemas accepting_getTable accepting_insert
               [sample_record "1"; sample_record "2"; sample_record "3"])) = 3.
Proof.
  apply (load_starts_every_record_at_once "proj" unit string no_schemas
           accepting_getTable accepting_insert
           [sample_record "1"; sample_record "2"; sample_record "3"]).
  intros d Hd. list_cases Hd; eexists; reflexivity.
Defined.


(** * Further properties of the pipeline script *)

(** ** Listing the ads of the accounts *)

Lemma flat_of_arrays (ls : list (list value)) : flat (VArr <$> ls) = ls ≫= id.
Proof.
  unfold flat. induction ls as [|l ls IH]; [reflexivity|].
  rewrite fmap_cons, bind_cons. cbn. f_equal. exact IH.
Qed.

(** The call that lists the ads of an account, with the two fields the
    script asks for. *)
Definition adsCall (account : value) : call :=
  Call ("/" +:+ toString (id_of account) +:+ "/ads")
       (VObj [("fields", str_array ["ad_id"; "account_id"])]).

Section AdsListing.

Variable remote : string → value → string + list value.

Definition adsOf (account : value) : list value :=
  match remote (call_path (adsCall account)) (call_params (adsCall account)) with
  | inr rows => rows
  | inl _ => []
  end.

(** The listing of an account goes through: the account is no
    [undefined] or [null], and the remote answers with rows. *)
Definition listing_ok (account : value) : Prop :=
  (∃ v, get_prop "id" account = inr v) ∧
  ∃ rows, remote (call_path (adsCall account)) (call_params (adsCall account))
          = inr rows.

(** The callback of the listing, as [fetchAds] passes it to
    [paralellize]. *)
Definition listAds (account : value) : M value :=
  id ← lift (get_prop "id" account);
  VArr <$> fetchGraphApi remote ("/" +:+ toString id +:+ "/ads")
             (VObj [("fields", str_array ["ad_id"; "account_id"])]).

Lemma listAds_ok (account : value) :
  listing_ok account →
  listAds account = (inr (VArr (adsOf account)), [adsCall account]).
Proof.
  intros [[v Hv] [rows Hrows]].
  unfold listAds, adsOf, adsCall, fetchGraphApi, id_of in *.
  cbn [call_path call_params] in *.
  rewrite Hv in *. cbn. rewrite Hrows. reflexivity.
Qed.

Lemma listAds_inr (account y : value) :
  fst (listAds account) = inr y → listing_ok account.
Proof.
  unfold listAds, listing_ok, adsCall, fetchGraphApi, id_of.
  cbn [call_path call_params].
  destruct (get_prop "id" account) as [e|v] eqn:Hv; cbn; [discriminate|].
  intros H. split; [eauto|].
  destruct (remote _ _) as [cause|rows]; cbn in H; [discriminate|eauto].
Qed.

Lemma fetchAds_ok (accounts : list value) :
  (∀ a, a ∈ accounts → listing_ok a) →
  fetchAds remote accounts = (inr (accounts ≫= adsOf), adsCall <$> accounts).
Proof.
  intros Hok. unfold fetchAds.
  change (paralellize accounts _) with (paralellize accounts listAds).
  rewrite (paralellize_ok accounts listAds (fun a => VArr (adsOf a))
             (fun a => [adsCall a]))
    by (intros a Ha; apply listAds_ok, Hok, Ha).
  cbn [fmap M_fmap fst snd].
  rewrite bind_fmap_singleton. f_equal. f_equal.
  rewrite (list_fmap_compose adsOf VArr), flat_of_arrays.
  rewrite list_fmap_bind. reflexivity.
Qed.

Lemma fetchAds_inr (accounts ads : list value) (calls : list call) :
  fetchAds remote accounts = (inr ads, calls) →
  ∀ a, a ∈ accounts → listing_ok a.
Proof.
  unfold fetchAds.
  change (paralellize accounts _) with (paralellize accounts listAds).
  destruct (paralellize accounts listAds) as [[e|ys] w] eqn:Hp; [discriminate|].
  intros _ a Ha.
  apply paralellize_inr in Hp as [HF _].
  apply list_elem_of_lookup in Ha as [i Hi].
  destruct (Forall2_lookup_l _ _ _ _ _ HF Hi) as (y & _ & Hy).
  eapply listAds_inr. exact Hy.
Qed.

End AdsListing.

(** X1. The listing of ads returns exactly when the listing of every
    account goes through. It has then made one call per account, each
    to [/{accountId}/ads] with the fields [ad_id] and [account_id], and
    what it returns are the rows of the accounts' listings, every row
    as often as it was listed and no other: one level of nesting is
    removed, no more, and no row is dropped or repeated. Nothing is
    said of the order of the calls or of the rows. *)
Theorem fetchAds_lists_every_account
    (remote : string → value → string + list value) (accounts : list value) :
  ((∃ ads calls, fetchAds remote accounts = (inr ads, calls)) ↔
   ∀ a, a ∈ accounts → listing_ok remote a) ∧
  ∀ ads calls,
    fetchAds remote accounts = (inr ads, calls) →
    ads ≡ₚ accounts ≫= adsOf remote ∧
    calls ≡ₚ adsCall <$> accounts ∧
    length calls = length accounts.
Proof.
  split.
  - split.
    + intros (ads & calls & H). exact (fetchAds_inr remote accounts ads calls H).
    + intros Hok. eexists _, _. apply fetchAds_ok. exact Hok.
  - intros ads calls H.
    pose proof (fetchAds_inr remote accounts ads calls H) as Hok.
    rewrite (fetchAds_ok remote accounts Hok) in H.
    assert (Hads : ads = accounts ≫= adsOf remote) by congruence.
    assert (Hcalls : calls = adsCall <$> accounts) by congruence.
    rewrite Hads, Hcalls, length_fmap. auto.
Qed.

(** ** The whole extraction *)

Lemma matrix_no_ads {A : Type} (unit : string → list string → value → A)
    (periods : list string) (combos : list (list string)) :
  matrix unit periods combos [] = [].
Proof.
  unfold matrix. induction periods as [|p ps IH]; [reflexivity|].
  rewrite bind_cons, IH, app_nil_r. clear IH.
  induction combos as [|c cs IHc]; [reflexivity|].
  rewrite bind_cons, IHc. reflexivity.
Qed.

Section Extraction.

Variable remote : string → value → string + list value.
Variable metrics : list string.

(** The script's extraction, from the accounts the remote lists. *)
Lemma pipeline_from_accounts (accounts : list value) :
  remote "/me/adaccounts" VUndefined = inr accounts →
  pipeline remote metrics
  = (fst (fetchAds remote accounts
            ≫= (fun ads => brokenDownInsights remote metrics ads)),
     Call "/me/adaccounts" VUndefined
       :: snd (fetchAds remote accounts
                 ≫= (fun ads => brokenDownInsights remote metrics ads))).
Proof.
  intros Hacc. unfold pipeline.
  change (strict_eq_str (VStr (const_prop "personal" AD_ACCOUNT_SOURCES))
            (const_prop "personal" AD_ACCOUNT_SOURCES)) with true.
  unfold fetchAdAccounts.
  change (strict_eq_str (VStr (const_prop "personal" AD_ACCOUNT_SOURCES))
            (const_prop "personal" AD_ACCOUNT_SOURCES)) with true.
  cbv iota.
  rewrite (bind_inr _ _ accounts [Call "/me/adaccounts" VUndefined])
    by (unfold fetchGraphApi; rewrite Hacc; reflexivity).
  reflexivity.
Qed.

Lemma pipeline_accounts_fail (cause : string) :
  remote "/me/adaccounts" VUndefined = inl cause →
  pipeline remote metrics
  = (inl (RemoteError cause), [Call "/me/adaccounts" VUndefined]).
Proof.
  intros Hacc. unfold pipeline, fetchAdAccounts.
  change (strict_eq_str (VStr (const_prop "personal" AD_ACCOUNT_SOURCES))
            (const_prop "personal" AD_ACCOUNT_SOURCES)) with true.
  cbv iota.
  rewrite (bind_inl _ _ (RemoteError cause) [Call "/me/adaccounts" VUndefined])
    by (unfold fetchGraphApi; rewrite Hacc; reflexivity).
  reflexivity.
Qed.

Lemma pipeline_inr (records : list value) (calls : list call) :
  pipeline remote metrics = (inr records, calls) →
  ∃ accounts,
    remote "/me/adaccounts" VUndefined = inr accounts ∧
    (∀ a, a ∈ accounts → listing_ok remote a) ∧
    (∀ p c ad, p ∈ Object_keys PERIODS → c ∈ BREAKDOWNS →
               ad ∈ accounts ≫= adsOf remote →
               request_ok remote metrics p c ad).
Proof.
  intros H.
  destruct (remote "/me/adaccounts" VUndefined) as [cause|accounts] eqn:Hacc.
  { rewrite (pipeline_accounts_fail cause Hacc) in H. discriminate. }
  exists accounts. split; [reflexivity|].
  rewrite (pipeline_from_accounts accounts Hacc) in H.
  destruct (fetchAds remote accounts) as [[e|ads] w] eqn:Hads.
  { rewrite (bind_inl _ _ e w) in H by reflexivity. discriminate. }
  rewrite (bind_inr _ _ ads w) in H by reflexivity.
  pose proof (fetchAds_inr remote accounts ads w Hads) as Hok.
  rewrite (fetchAds_ok remote accounts Hok) in Hads.
  assert (ads = accounts ≫= adsOf remote) as -> by congruence.
  split; [exact Hok|].
  destruct (brokenDownInsights remote metrics (accounts ≫= adsOf remote))
    as [[e|rs] w'] eqn:Hfan; [discriminate|].
  unfold brokenDownInsights in Hfan.
  apply fanout_inr in Hfan as [Hn|[Hn|Hreq]]; [discriminate..|exact Hreq].
Qed.

Lemma pipeline_ok (accounts : list value) :
  remote "/me/adaccounts" VUndefined = inr accounts →
  (∀ a, a ∈ accounts → listing_ok remote a) →
  (∀ p c ad, p ∈ Object_keys PERIODS → c ∈ BREAKDOWNS →
             ad ∈ accounts ≫= adsOf remote →
             request_ok remote metrics p c ad) →
  pipeline remote metrics
  = (inr (matrix (unitRecord remote metrics) (Object_keys PERIODS) BREAKDOWNS
            (accounts ≫= adsOf remote)),
     Call "/me/adaccounts" VUndefined
       :: (adsCall <$> accounts)
       ++ matrix (insightCall metrics) (Object_keys PERIODS) BREAKDOWNS
            (accounts ≫= adsOf remote)).
Proof.
  intros Hacc Hok Hreq.
  rewrite (pipeline_from_accounts accounts Hacc).
  rewrite (bind_inr _ _ (accounts ≫= adsOf remote) (adsCall <$> accounts))
    by (apply fetchAds_ok; exact Hok).
  unfold brokenDownInsights. rewrite (fanout_ok _ _ _ _ _ Hreq). reflexivity.
Qed.

End Extraction.

(** X2. A run of the extraction that returned has made exactly one
    call for the accounts, one call per account for its ads and four
    insight calls per ad, in that order, and returns four records per
    ad; the ads are those the accounts' listings returned. *)
Theorem pipeline_calls_and_records
    (remote : string → value → string + list value) (metrics : list string)
    (records : list value) (calls : list call) :
  pipeline remote metrics = (inr records, calls) →
  ∃ accounts,
    remote "/me/adaccounts" VUndefined = inr accounts ∧
    records = matrix (unitRecord remote metrics) (Object_keys PERIODS) BREAKDOWNS
                (accounts ≫= adsOf remote) ∧
    calls = Call "/me/adaccounts" VUndefined
              :: (adsCall <$> accounts)
              ++ matrix (insightCall metrics) (Object_keys PERIODS) BREAKDOWNS
                   (accounts ≫= adsOf remote) ∧
    length calls = 1 + length accounts + 4 * length (accounts ≫= adsOf remote) ∧
    length records = 4 * length (accounts ≫= adsOf remote).
Proof.
  intros H.
  destruct (pipeline_inr remote metrics records calls H)
    as (accounts & Hacc & Hok & Hreq).
  exists accounts. split; [exact Hacc|].
  rewrite (pipeline_ok remote metrics accounts Hacc Hok Hreq) in H.
  assert (Hrecords : records
            = matrix (unitRecord remote metrics) (Object_keys PERIODS) BREAKDOWNS
                (accounts ≫= adsOf remote)) by congruence.
  assert (Hcalls : calls
            = Call "/me/adaccounts" VUndefined
                :: (adsCall <$> accounts)
                ++ matrix (insightCall metrics) (Object_keys PERIODS) BREAKDOWNS
                     (accounts ≫= adsOf remote)) by congruence.
  split; [exact Hrecords|]. split; [exact Hcalls|].
  rewrite Hrecords, Hcalls. cbn [length].
  rewrite length_app, length_fmap, !matrix_length. cbn. lia.
Qed.

(** A remote with two accounts, of one and of two ads. *)
Definition two_account_remote (path : string) (params : value)
    : string + list value :=
  if String.eqb path "/me/adaccounts" then
    inr [VObj [("id", VStr "act_1")]; VObj [("id", VStr "act_2")]]
  else if String.eqb path "/act_1/ads" then
    inr [sample_ad "11" "1"]
  else if String.eqb path "/act_2/ads" then
    inr [sample_ad "21" "2"; sample_ad "22" "2"]
  else inr [VObj [("impressions", VNum 5)]].

Lemma pipeline_calls_and_records_witness :
  length (snd (pipeline two_account_remote sample_metrics)) = 1 + 2 + 4 * 3 ∧
  ∃ records, fst (pipeline two_account_remote sample_metrics) = inr records ∧
             length records = 4 * 3.
Proof.
  destruct (pipeline two_account_remote sample_metrics)
    as [[e|records] calls] eqn:Hrun; [discriminate|].
  destruct (pipeline_calls_and_records two_account_remote sample_metrics
              records calls Hrun)
    as (accounts & Hacc & _ & _ & Hcalls & Hrecords).
  injection Hacc as <-.
  split; [exact Hcalls|]. exists records. split; [reflexivity|exact Hrecords].
Defined.

(** X3. When the accounts have no ads (in particular when there is no
    account), the extraction makes no insight call and returns no
    record, and the load of no record issues no warehouse call and
    resolves. *)
Theorem pipeline_without_ads
    (remote : string → value → string + list value) (metrics : list string)
    (accounts : list value)
    (projectId : string) (Schema Table : Type)
    (schemas : string → option Schema)
    (getTable : string → option Schema → string + Table)
    (insert : Table → value → string + unit) :
  remote "/me/adaccounts" VUndefined = inr accounts →
  (∀ a, a ∈ accounts → listing_ok remote a ∧ adsOf remote a = []) →
  pipeline remote metrics
  = (inr [], Call "/me/adaccounts" VUndefined :: (adsCall <$> accounts)) ∧
  issued (load projectId schemas getTable insert []) = [] ∧
  outcome (load projectId schemas getTable insert []) = Some (inr tt).
Proof.
  intros Hacc Hempty.
  assert (Hads : accounts ≫= adsOf remote = []).
  { clear Hacc. induction accounts as [|a accounts IH]; [reflexivity|].
    rewrite bind_cons, IH by (intros a' Ha'; apply Hempty; right; exact Ha').
    destruct (Hempty a) as [_ ->]; [left|reflexivity]. }
  split; [|split; reflexivity].
  rewrite (pipeline_ok remote metrics accounts Hacc).
  - rewrite Hads, !matrix_no_ads, app_nil_r. reflexivity.
  - intros a Ha. apply Hempty. exact Ha.
  - intros p c ad _ _ Had. rewrite Hads in Had. inversion Had.
Qed.

Lemma pipeline_without_ads_witness :
  pipeline (fun path params => inr []) sample_metrics
  = (inr [], [Call "/me/adaccounts" VUndefined]) ∧
  outcome (load "proj" no_schemas accepting_getTable accepting_insert [])
  = Some (inr tt).
Proof.
  destruct (pipeline_without_ads (fun path params => inr []) sample_metrics []
              "proj" unit string no_schemas accepting_getTable accepting_insert)
    as (Hrun & _ & Hload).
  - reflexivity.
  - intros a Ha. inversion Ha.
  - split; [exact Hrun|exact Hload].
Defined.

Lemma fanout_no_combos
    (remote : string → value → string + list value) (metrics : list string)
    (periods : list string) (ads : list value) :
  fanout remote metrics periods [] ads = (inr [], []).
Proof.
  unfold fanout.
  rewrite (bind_inr _ _ ((fun _ => VArr []) <$> periods) (periods ≫= (fun _ => [])))
    by (apply paralellize_ok; intros p _; reflexivity).
  cbn [fst snd mret M_ret].
  assert (E : flat ((fun _ : string => VArr []) <$> periods) = []).
  { induction periods as [|p ps IH]; [reflexivity|]. exact IH. }
  assert (E' : periods ≫= (fun _ : string => @nil call) = []).
  { clear E. induction periods as [|p ps IH]; [reflexivity|]. exact IH. }
  rewrite E, E'. reflexivity.
Qed.

(** X4. Every record of a fan-out that returned describes its own
    request: it carries the fixed user id, the id and account id of one
    of the ads, one of the periods and one of the breakdown
    combinations, and as insights exactly the rows the remote answered
    to the call for that ad, period and breakdowns. *)
Theorem records_describe_their_request
    (remote : string → value → string + list value) (metrics : list string)
    (periods : list string) (combos : list (list string))
    (ads records : list value) (calls : list call) (r : value) :
  fanout remote metrics periods combos ads = (inr records, calls) →
  r ∈ records →
  ∃ p c ad rows,
    p ∈ periods ∧ c ∈ combos ∧ ad ∈ ads ∧
    remote (call_path (insightCall metrics p c ad))
           (call_params (insightCall metrics p c ad)) = inr rows ∧
    r = insightRecord (account_of ad) (id_of ad) p c rows ∧
    get_prop "user_id" r = inr (VStr USER_ID) ∧
    get_prop "insights" r = inr (VArr rows).
Proof.
  intros Hrun Hr.
  pose proof (fanout_inr _ _ _ _ _ _ _ Hrun) as [->|[->|Hok]].
  - cbn in Hrun. injection Hrun as <- _. inversion Hr.
  - rewrite fanout_no_combos in Hrun. injection Hrun as <- _. inversion Hr.
  - rewrite (fanout_ok _ _ _ _ _ Hok) in Hrun.
    assert (Hrecords : records = matrix (unitRecord remote metrics) periods combos ads)
      by congruence.
    rewrite Hrecords in Hr.
    apply elem_of_matrix in Hr as (p & c & ad & Hp & Hc & Had & ->).
    destruct (Hok p c ad Hp Hc Had) as [_ [rows Hrows]].
    exists p, c, ad, rows. unfold unitRecord. rewrite Hrows.
    repeat split; assumption.
Qed.

Lemma records_describe_their_request_witness :
  ∃ p c ad rows,
    p ∈ ["daily"] ∧ c ∈ [["age"; "gender"]] ∧ ad ∈ [sample_ad "11" "1"] ∧
    two_account_remote (call_path (insightCall sample_metrics p c ad))
                       (call_params (insightCall sample_metrics p c ad)) = inr rows ∧
    insightRecord (VStr "1") (VStr "11") "daily" ["age"; "gender"]
      [VObj [("impressions", VNum 5)]]
    = insightRecord (account_of ad) (id_of ad) p c rows.
Proof.
  destruct (records_describe_their_request two_account_remote sample_metrics
              ["daily"] [["age"; "gender"]] [sample_ad "11" "1"]
              [insightRecord (VStr "1") (VStr "11") "daily" ["age"; "gender"]
                 [VObj [("impressions", VNum 5)]]]
              [insightCall sample_metrics "daily" ["age"; "gender"]
                 (sample_ad "11" "1")]
              (insightRecord (VStr "1") (VStr "11") "daily" ["age"; "gender"]
                 [VObj [("impressions", VNum 5)]]))
    as (p & c & ad & rows & Hp & Hc & Had & Hrows & Hr & _).
  - reflexivity.
  - left.
  - exists p, c, ad, rows. repeat split; assumption.
Defined.

(** ** Table names as a code of the period and the breakdowns *)

From Stdlib Require Import Ascii.

Fixpoint no_underscore (s : string) : bool :=
  match s with
  | EmptyString => true
  | String c s' => negb (Ascii.eqb c "_"%char) && no_underscore s'
  end.

(** A dimension name that the joined table name can be split at: not
    empty and free of the separator. *)
Definition dimension_name (s : string) : Prop :=
  s ≠ "" ∧ no_underscore s = true.

Lemma append_nil_l (s : string) : "" +:+ s = s.
Proof. reflexivity. Qed.

Lemma append_cons (c : ascii) (s t : string) :
  String c s +:+ t = String c (s +:+ t).
Proof. reflexivity. Qed.

Lemma append_inv_head (s a b : string) : s +:+ a = s +:+ b → a = b.
Proof.
  induction s as [|c s IH]; rewrite ?append_nil_l, ?append_cons; [auto|].
  intros H. injection H as H. auto.
Qed.

Lemma split_at_underscore (x y r r' : string) :
  no_underscore x = true → no_underscore y = true →
  x +:+ "_" +:+ r = y +:+ "_" +:+ r' → x = y ∧ r = r'.
Proof.
  revert y. induction x as [|a x IH]; intros [|b y] Hx Hy H;
    repeat (rewrite append_nil_l in H || rewrite append_cons in H);
    cbn in Hx, Hy.
  - injection H as ->. auto.
  - injection H as <- _. discriminate.
  - injection H as -> _. discriminate.
  - injection H as -> H.
    apply andb_prop in Hx as [_ Hx]. apply andb_prop in Hy as [_ Hy].
    destruct (IH y Hx Hy H) as [-> ->]. auto.
Qed.

Lemma no_underscore_not_joined (x y r : string) :
  no_underscore x = true → x ≠ y +:+ "_" +:+ r.
Proof.
  revert y. induction x as [|a x IH]; intros [|b y] Hx H;
    repeat (rewrite append_nil_l in H || rewrite append_cons in H);
    cbn in Hx; try discriminate.
  - injection H as -> _. discriminate.
  - injection H as _ H. apply andb_prop in Hx as [_ Hx]. exact (IH y Hx H).
Qed.

Lemma join_with_underscore_inj (b1 b2 : list string) :
  Forall dimension_name b1 → Forall dimension_name b2 →
  join_with "_" b1 = join_with "_" b2 → b1 = b2.
Proof.
  intros H1. revert b2.
  induction H1 as [|x xs [Hx Hxu] Hxs IH]; intros b2 H2 H.
  - destruct H2 as [|y ys [Hy _] _]; [reflexivity|].
    exfalso. destruct ys; cbn in H; [congruence|].
    destruct y; [congruence|discriminate].
  - destruct H2 as [|y ys [Hy Hyu] Hys].
    { exfalso. destruct xs; cbn in H; [congruence|].
      destruct x; [congruence|discriminate]. }
    destruct xs as [|x2 xs], ys as [|y2 ys].
    + cbn in H. congruence.
    + exfalso. change (x = y +:+ "_" +:+ join_with "_" (y2 :: ys)) in H.
      exact (no_underscore_not_joined _ _ _ Hxu H).
    + exfalso. change (x +:+ "_" +:+ join_with "_" (x2 :: xs) = y) in H.
      symmetry in H. exact (no_underscore_not_joined _ _ _ Hyu H).
    + change (x +:+ "_" +:+ join_with "_" (x2 :: xs)
              = y +:+ "_" +:+ join_with "_" (y2 :: ys)) in H.
      destruct (split_at_underscore _ _ _ _ Hxu Hyu H) as [-> Hrest].
      f_equal. apply IH; assumption.
Qed.

(** Without a condition on the names, two different pairs of period
    and breakdowns can be routed to one table. *)
Remark table_name_collision :
  tableName (insightRecord VNull VNull "daily_age" ["gender"] [])
  = tableName (insightRecord VNull VNull "daily" ["age"; "gender"] []).
Proof. reflexivity. Qed.

(** X5. Routing separates the combinations: when the periods contain
    no underscore and the dimension names are non-empty and contain no
    underscore, two records routed to the same table have the same
    period and the same breakdowns, in the same order. *)
Theorem table_name_injective
    (acc1 id1 acc2 id2 : value) (p1 p2 : string) (b1 b2 : list string)
    (rows1 rows2 : list value) :
  no_underscore p1 = true → no_underscore p2 = true →
  Forall dimension_name b1 → Forall dimension_name b2 →
  tableName (insightRecord acc1 id1 p1 b1 rows1)
  = tableName (insightRecord acc2 id2 p2 b2 rows2) →
  p1 = p2 ∧ b1 = b2.
Proof.
  intros Hp1 Hp2 Hb1 Hb2 H.
  rewrite !tableName_insightRecord in H. injection H as H.
  apply append_inv_head in H.
  destruct (split_at_underscore _ _ _ _ Hp1 Hp2 H) as [-> Hjoin].
  split; [reflexivity|].
  apply join_with_underscore_inj; assumption.
Qed.

Lemma table_name_injective_witness :
  "daily" = "daily" ∧ ["age"; "gender"] = ["age"; "gender"].
Proof.
  apply (table_name_injective (VStr "act_9") (VStr "1") (VStr "act_7") (VStr "2")
           "daily" "daily" ["age"; "gender"] ["age"; "gender"]
           [] [VObj [("impressions", VNum 5)]]).
  - reflexivity.
  - reflexivity.
  - repeat constructor; discriminate.
  - repeat constructor; discriminate.
  - reflexivity.
Defined.

(** ** The warehouse load, call by call *)

Lemma tableName_inl (data : value) (e : error) :
  tableName data = inl e → e = TypeError.
Proof.
  unfold tableName, get_prop.
  destruct data as [| | | | | |fields]; try congruence.
  destruct (default VUndefined (assoc "breakdowns" fields)); congruence.
Qed.

Lemma tableName_needs_breakdowns_array (data : value) :
  (∀ elems, get_prop "breakdowns" data ≠ inr (VArr elems)) →
  tableName data = inl TypeError.
Proof.
  unfold tableName. intros H.
  destruct (get_prop "breakdowns" data) as [e|b] eqn:Hb.
  - destruct data; cbn in Hb; congruence.
  - destruct (get_prop "period" data) as [e|p] eqn:Hp.
    + destruct data; cbn in Hb, Hp; congruence.
    + destruct b; try reflexivity. exfalso. exact (H elems eq_refl).
Qed.

Section LoadCalls.

Variable projectId : string.
Variables Schema Table : Type.
Variable schemas : string → option Schema.
Variable getTable : string → option Schema → string + Table.
Variable insert : Table → value → string + unit.

(** The insert a resumed callback issues, and the write it makes to
    the cache, when the table it awaited was obtained. *)
Definition resumed_calls (t : task Table) : list (wcall Schema Table) :=
  match t with
  | AwaitGetTable _ data (inr table) => [Insert table data]
  | _ => []
  end.

Definition cache_write (m : gmap string Table) (t : task Table)
    : gmap string Table :=
  match t with
  | AwaitGetTable name _ (inr table) => <[name := table]> m
  | _ => m
  end.

Lemma resume_effects (st : loader Schema Table) (i : nat) (t : task Table) :
  tasks st !! i = Some t →
  issued (resume insert st i) = issued st ++ resumed_calls t ∧
  tables (resume insert st i) = cache_write (tables st) t.
Proof.
  intros Hi. unfold resume. rewrite Hi.
  destruct t as [name d [cause|table]|[cause|[]]| |e]; cbn;
    rewrite ?app_nil_r; auto.
  rewrite lookup_insert_eq. cbn. auto.
Qed.

(** One pass of the schedule over callbacks [l2], behind [l1]: the
    inserts issued and the handles stored. *)
Lemma pass_effects (l2 l1 : list (task Table)) (st : loader Schema Table) :
  tasks st = l1 ++ l2 →
  issued (run insert (seq (length l1) (length l2)) st)
  = issued st ++ (l2 ≫= resumed_calls) ∧
  tables (run insert (seq (length l1) (length l2)) st)
  = fold_left cache_write l2 (tables st).
Proof.
  revert l1 st. induction l2 as [|t l2 IH]; intros l1 st Hst.
  - cbn. rewrite app_nil_r. auto.
  - cbn [length seq run fold_left].
    assert (Hi : tasks st !! length l1 = Some t).
    { rewrite Hst. apply list_lookup_middle. reflexivity. }
    destruct (resume_effects st (length l1) t Hi) as [Hiss Htab].
    pose proof (resume_tasks Schema Table insert st (length l1) t Hi) as Hr.
    rewrite Hst in Hr.
    replace (length l1) with (length l1 + 0) in Hr at 2 by lia.
    rewrite insert_app_r in Hr. cbn in Hr.
    specialize (IH (l1 ++ [resumed insert t]) (resume insert st (length l1))).
    rewrite length_app in IH. cbn [length] in IH.
    replace (length l1 + 1) with (S (length l1)) in IH by lia.
    unfold run in IH.
    destruct IH as [IH1 IH2]; [rewrite Hr, <- (assoc_L (++)); reflexivity|].
    rewrite IH1, IH2, Hiss, Htab, bind_cons, <- (assoc_L (++)). auto.
Qed.

(** The insert of a record, issued once its table was obtained. *)
Definition insert_calls (data : value) : list (wcall Schema Table) :=
  match tableName data with
  | inr name =>
      match getTable (fullyQualifiedTableName projectId name) (schemas name) with
      | inr table => [Insert table data]
      | inl _ => []
      end
  | inl _ => []
  end.

(** The handle a record stores in the cache. *)
Definition stored_handle (m : gmap string Table) (data : value)
    : gmap string Table :=
  match tableName data with
  | inr name =>
      match getTable (fullyQualifiedTableName projectId name) (schemas name) with
      | inr table => <[name := table]> m
      | inl _ => m
      end
  | inl _ => m
  end.

Lemma resumed_calls_of_resumed (l : list (task Table)) :
  (resumed insert <$> l) ≫= resumed_calls
  = (l ≫= (fun t => match t with
                    | AwaitInsert _ | Resolved | Rejected _
                    | AwaitGetTable _ _ _ => @nil (wcall Schema Table)
                    end)).
Proof.
  induction l as [|t l IH]; [reflexivity|].
  rewrite fmap_cons, !bind_cons, IH. f_equal.
  destruct t as [name d [cause|table]|[cause|[]]| |e]; reflexivity.
Qed.

Lemma cache_write_of_resumed (l : list (task Table)) (m : gmap string Table) :
  fold_left cache_write (resumed insert <$> l) m = m.
Proof.
  revert m. induction l as [|t l IH]; intros m; [reflexivity|].
  rewrite fmap_cons. cbn [fold_left]. rewrite <- (IH m) at 2. f_equal.
  destruct t as [name d [cause|table]|[cause|[]]| |e]; reflexivity.
Qed.

Lemma cache_write_of_started (records : list value) (m : gmap string Table) :
  fold_left cache_write (started_task projectId schemas getTable <$> records) m
  = fold_left stored_handle records m.
Proof.
  revert m. induction records as [|d records IH]; intros m; [reflexivity|].
  rewrite fmap_cons. cbn [fold_left]. rewrite IH. f_equal.
  unfold stored_handle, started_task.
  destruct (tableName d); [reflexivity|]. cbn.
  destruct (getTable _ _); reflexivity.
Qed.

(** The calls of a whole load and the cache it leaves. *)
Lemma load_effects (records : list value) :
  issued (load projectId schemas getTable insert records)
  = (records ≫= started_calls projectId schemas) ++ (records ≫= insert_calls) ∧
  tables (load projectId schemas getTable insert records)
  = fold_left stored_handle records ∅.
Proof.
  unfold load, full_schedule, run. rewrite fold_left_app.
  destruct (load_start_shape projectId Schema Table schemas getTable insert records)
    as (Ht & Hk & Hi).
  set (st0 := load_start projectId schemas getTable insert records) in *.
  assert (Hlen : length records = length (tasks st0))
    by (rewrite Hk, length_fmap; reflexivity).
  rewrite Hlen.
  pose proof (pass_tasks Schema Table insert (tasks st0) [] st0 eq_refl) as H1.
  destruct (pass_effects (tasks st0) [] st0 eq_refl) as [H1i H1t].
  cbn [length app] in H1, H1i, H1t. unfold run in H1, H1i, H1t.
  set (st1 := fold_left (resume insert) (seq 0 (length (tasks st0))) st0) in *.
  assert (Hlen1 : length (tasks st0) = length (tasks st1))
    by (rewrite H1, length_fmap; reflexivity).
  rewrite Hlen1.
  destruct (pass_effects (tasks st1) [] st1 eq_refl) as [H2i H2t].
  cbn [length app] in H2i, H2t. unfold run in H2i, H2t.
  rewrite H2i, H2t, H1i, H1t, H1, Hi, Ht, Hk.
  rewrite resumed_calls_of_resumed, cache_write_of_resumed.
  split.
  - assert (E0 : ∀ l : list (task Table),
              l ≫= (fun t => match t with
                             | AwaitInsert _ | Resolved | Rejected _
                             | AwaitGetTable _ _ _ => @nil (wcall Schema Table)
                             end) = []).
    { induction l as [|t l IH]; [reflexivity|].
      rewrite bind_cons, IH. destruct t; reflexivity. }
    rewrite E0, app_nil_r. f_equal.
    rewrite list_fmap_bind. apply list_bind_ext; [|reflexivity].
    intros d. unfold insert_calls, started_task. cbn.
    destruct (tableName d); [reflexivity|]. cbn.
    destruct (getTable _ _); reflexivity.
  - apply cache_write_of_started.
Qed.

End LoadCalls.

Arguments resumed_calls {Schema Table} t.
Arguments cache_write {Table} m t.
Arguments insert_calls projectId {Schema Table} schemas getTable data.
Arguments stored_handle projectId {Schema Table} schemas getTable m data.

(** The inserts a whole load issues: those of the records whose table
    was obtained, each into the handle obtained for it. *)
Lemma insert_issued_iff
    (projectId : string) (Schema Table : Type)
    (schemas : string → option Schema)
    (getTable : string → option Schema → string + Table)
    (insert : Table → value → string + unit)
    (records : list value) (table : Table) (data : value) :
  Insert table data ∈ issued (load projectId schemas getTable insert records) ↔
  data ∈ records ∧
  ∃ name, tableName data = inr name ∧
          getTable (fullyQualifiedTableName projectId name) (schemas name)
          = inr table.
Proof.
  destruct (load_effects projectId Schema Table schemas getTable insert records)
    as [-> _].
  rewrite elem_of_app, !list_elem_of_bind. split.
  - intros [(d & Hin & _)|(d & Hin & Hd)].
    + exfalso. unfold started_calls in Hin.
      destruct (tableName d); [inversion Hin|].
      apply list_elem_of_singleton in Hin. discriminate.
    + unfold insert_calls in Hin.
      destruct (tableName d) as [e|name] eqn:Hn; [inversion Hin|].
      destruct (getTable _ _) as [cause|t] eqn:Hg; [inversion Hin|].
      apply list_elem_of_singleton in Hin. injection Hin as -> ->.
      split; [exact Hd|]. eauto.
  - intros (Hd & name & Hn & Hg). right. exists data. split; [|exact Hd].
    unfold insert_calls. rewrite Hn, Hg. left.
Qed.

(** C5, as the code has it. When the table of a record misses the
    cache and no schema is registered under its name, the load does not
    stop: it asks the warehouse client for the table with an absent
    schema and, when the client returns a handle, goes on to insert the
    record into that handle; the record is not inserted only when the
    client returns no handle. The load settles, and it is rejected only
    with an error that the warehouse client returned for one of its
    calls (or with the type error of a record whose period or
    breakdowns cannot be read); when the client accepts every call and
    every record has a table name, the load succeeds. *)
Theorem missing_schema_is_passed_on
    (projectId : string) (Schema Table : Type)
    (schemas : string → option Schema)
    (getTable : string → option Schema → string + Table)
    (insert : Table → value → string + unit)
    (records : list value) (d : value) (name : string) :
  d ∈ records → tableName d = inr name → schemas name = None →
  GetTable (fullyQualifiedTableName projectId name) None
    ∈ issued (load_start projectId schemas getTable insert records) ∧
  (∀ table,
     getTable (fullyQualifiedTableName projectId name) None = inr table ↔
     Insert table d ∈ issued (load projectId schemas getTable insert records)) ∧
  (∀ schedule e,
     rejection (run insert schedule
                  (load_start projectId schemas getTable insert records)) = Some e →
     (∃ d', d' ∈ records ∧ tableName d' = inl e) ∨ client_error getTable insert e) ∧
  (∃ r, outcome (load projectId schemas getTable insert records) = Some r) ∧
  ((∀ n s, ∃ t, getTable n s = inr t) →
   (∀ t d', insert t d' = inr tt) →
   (∀ d', d' ∈ records → ∃ n, tableName d' = inr n) →
   outcome (load projectId schemas getTable insert records) = Some (inr tt)).
Proof.
  intros Hd Hname Hschema.
  split; [|split; [|split; [|split]]].
  - destruct (load_start_shape projectId Schema Table schemas getTable insert records)
      as (_ & _ & ->).
    apply list_elem_of_bind. exists d. split; [|exact Hd].
    unfold started_calls. rewrite Hname, Hschema. left.
  - intros table. rewrite insert_issued_iff. split.
    + intros Hg. split; [exact Hd|]. exists name. rewrite Hschema. auto.
    + intros (_ & name' & Hname' & Hg).
      assert (name' = name) as -> by congruence.
      rewrite Hschema in Hg. exact Hg.
  - intros schedule e. apply load_rejection_explained.
  - apply load_settles.
  - intros HgetTable Hinsert Hroutes.
    destruct (load_settles projectId Schema Table schemas getTable insert records)
      as [[e|[]] Hr]; [|exact Hr].
    exfalso. unfold outcome, load in Hr.
    destruct (rejection _) as [e'|] eqn:Hrej;
      [|destruct (forallb _ _); discriminate].
    injection Hr as ->.
    apply load_rejection_explained in Hrej
      as [(d' & Hd' & He)|(cause & _ & [(n & s & Hc)|(t & d' & Hc)])].
    + destruct (Hroutes d' Hd') as [n Hn]. congruence.
    + destruct (HgetTable n s) as [t Ht]. congruence.
    + rewrite Hinsert in Hc. discriminate.
Qed.

Lemma missing_schema_is_passed_on_witness :
  GetTable "proj.facebook_ads_insights.facebook_ads_insights_daily_age_gender" None
    ∈ issued (load_start "proj" no_schemas accepting_getTable accepting_insert
                [sample_record "1"]) ∧
  Insert "proj.facebook_ads_insights.facebook_ads_insights_daily_age_gender"
         (sample_record "1")
    ∈ issued (load "proj" no_schemas accepting_getTable accepting_insert
                [sample_record "1"]) ∧
  outcome (load "proj" no_schemas accepting_getTable accepting_insert
             [sample_record "1"]) = Some (inr tt).
Proof.
  destruct (missing_schema_is_passed_on "proj" unit string no_schemas
              accepting_getTable accepting_insert [sample_record "1"]
              (sample_record "1") "facebook_ads_insights_daily_age_gender")
    as (Hcall & Hinsert & _ & _ & Hok).
  - left.
  - reflexivity.
  - reflexivity.
  - split; [exact Hcall|]. split; [apply Hinsert; reflexivity|]. apply Hok.
    + intros n s. exists n. reflexivity.
    + intros t d'. reflexivity.
    + intros d' Hd'. list_cases Hd'. eexists. reflexivity.
Defined.

Section LoadRejection.

Variable projectId : string.
Variables Schema Table : Type.
Variable schemas : string → option Schema.
Variable getTable : string → option Schema → string + Table.
Variable insert : Table → value → string + unit.

Lemma start_rejection_sticky (st : loader Schema Table) (d : value) (e : error) :
  rejection st = Some e →
  rejection (start projectId schemas getTable insert st d) = Some e.
Proof.
  intros Hr. unfold start.
  destruct (tableName d) as [e'|name]; [|destruct (tables st !! name)]; cbn;
    rewrite Hr; reflexivity.
Qed.

Lemma resume_rejection_sticky (st : loader Schema Table) (i : nat) (e : error) :
  rejection st = Some e → rejection (resume insert st i) = Some e.
Proof.
  intros Hr. unfold resume.
  destruct (tasks st !! i) as [[name d [cause|table]|[cause|[]]| |e']|];
    cbn; rewrite ?lookup_insert_eq; cbn; rewrite ?Hr; reflexivity.
Qed.

Lemma run_rejection_sticky (schedule : list nat) (st : loader Schema Table)
    (e : error) :
  rejection st = Some e → rejection (run insert schedule st) = Some e.
Proof.
  intros Hr. unfold run. apply fold_left_invariant; [exact Hr|].
  intros st' i _. apply resume_rejection_sticky.
Qed.

Lemma fold_start_unroutable (records : list value) (st : loader Schema Table) :
  (∃ d, d ∈ records ∧ tableName d = inl TypeError) →
  rejection st = None ∨ rejection st = Some TypeError →
  rejection (fold_left (start projectId schemas getTable insert) records st)
  = Some TypeError.
Proof.
  revert st. induction records as [|d0 records IH]; intros st (d & Hd & Hn) Hst.
  { inversion Hd. }
  cbn [fold_left].
  destruct (tableName d0) as [e0|name0] eqn:Hn0.
  - apply fold_left_invariant.
    + unfold start. rewrite Hn0. cbn.
      apply tableName_inl in Hn0 as ->.
      destruct Hst as [->| ->]; reflexivity.
    + intros st' d' _. apply start_rejection_sticky.
  - apply IH.
    + exists d. split; [|exact Hn].
      apply elem_of_cons in Hd as [->|Hd]; [congruence|exact Hd].
    + unfold start. rewrite Hn0.
      destruct (tables st !! name0); cbn; exact Hst.
Qed.

(** A rejected load has a rejected callback. *)
Definition rejection_has_task (st : loader Schema Table) : Prop :=
  rejection st ≠ None → ∃ i e, tasks st !! i = Some (Rejected e).

Lemma start_rejection_has_task (st : loader Schema Table) (d : value) :
  rejection_has_task st →
  rejection_has_task (start projectId schemas getTable insert st d).
Proof.
  unfold rejection_has_task, start. intros Hinv.
  assert (Hkeep : ∀ t, rejection st ≠ None →
            ∃ i e, (tasks st ++ [t]) !! i = Some (Rejected e)).
  { intros t Hr. destruct (Hinv Hr) as (i & e & Hi).
    exists i, e. apply lookup_app_l_Some. exact Hi. }
  destruct (tableName d) as [e|name]; [|destruct (tables st !! name)]; cbn;
    try apply Hkeep.
  intros _. exists (length (tasks st)), e.
  apply list_lookup_middle. reflexivity.
Qed.

Lemma resume_rejection_has_task (st : loader Schema Table) (i : nat) :
  rejection_has_task st → rejection_has_task (resume insert st i).
Proof.
  unfold rejection_has_task, resume. intros Hinv.
  destruct (tasks st !! i) as [t|] eqn:Hi; [|exact Hinv].
  assert (Hlt : i < length (tasks st)) by (eapply lookup_lt_Some; exact Hi).
  assert (Hnew : ∀ e, ∃ j e', <[i := Rejected e]> (tasks st) !! j
                              = Some (Rejected e')).
  { intros e. exists i, e. apply list_lookup_insert_eq. exact Hlt. }
  assert (Hkeep : ∀ t', (∀ e, t ≠ Rejected e) → rejection st ≠ None →
            ∃ j e', <[i := t']> (tasks st) !! j = Some (Rejected e')).
  { intros t' Ht Hr. destruct (Hinv Hr) as (j & e' & Hj).
    exists j, e'. rewrite list_lookup_insert_ne; [exact Hj|].
    intros ->. rewrite Hi in Hj. injection Hj as ->. exact (Ht e' eq_refl). }
  destruct t as [name d [cause|table]|[cause|[]]| |e]; cbn;
    rewrite ?lookup_insert_eq; cbn; try (intros _; apply Hnew);
    try (apply Hkeep; discriminate); exact Hinv.
Qed.

Lemma load_rejection_has_task (records : list value) :
  rejection_has_task (load projectId schemas getTable insert records).
Proof.
  unfold load, run. apply fold_left_invariant.
  - unfold load_start. apply fold_left_invariant.
    + intros H. contradiction.
    + intros st d _. apply start_rejection_has_task.
  - intros st i _. apply resume_rejection_has_task.
Qed.

(** A record goes through the load: it has a table name, the table is
    obtained, and the insert is accepted. *)
Definition record_loads (data : value) : Prop :=
  ∃ name table,
    tableName data = inr name ∧
    getTable (fullyQualifiedTableName projectId name) (schemas name) = inr table ∧
    insert table data = inr tt.

Lemma resumed_twice_resolved (d : value) :
  resumed insert (resumed insert (started_task projectId schemas getTable d))
  = Resolved ↔ record_loads d.
Proof.
  unfold started_task, record_loads.
  destruct (tableName d) as [e|name]; cbn.
  { split; [discriminate|]. intros (n & t & H & _). discriminate. }
  destruct (getTable _ _) as [cause|table] eqn:Hg; cbn.
  { split; [discriminate|].
    intros (n & t & [= <-] & H & _). congruence. }
  destruct (insert table d) as [cause|[]] eqn:Hins; cbn.
  - split; [discriminate|].
    intros (n & t & [= <-] & H & H'). congruence.
  - split; [|reflexivity]. intros _. eauto.
Qed.

End LoadRejection.

Arguments rejection_has_task {Schema Table} st.
Arguments record_loads projectId {Schema Table} schemas getTable insert data.

(** X6. A record whose [breakdowns] is missing or no array rejects the
    load with a type error as soon as the load is started, whatever the
    warehouse client answers and in whatever order the callbacks are
    resumed; the tables of the other records are asked for all the
    same. *)
Theorem record_without_breakdowns_rejects_load
    (projectId : string) (Schema Table : Type)
    (schemas : string → option Schema)
    (getTable : string → option Schema → string + Table)
    (insert : Table → value → string + unit)
    (records : list value) (d : value) (schedule : list nat) :
  d ∈ records →
  (∀ elems, get_prop "breakdowns" d ≠ inr (VArr elems)) →
  outcome (run insert schedule
             (load_start projectId schemas getTable insert records))
  = Some (inl TypeError) ∧
  getTable_calls (run insert schedule
                    (load_start projectId schemas getTable insert records))
  = records ≫= started_calls projectId schemas.
Proof.
  intros Hd Hb. split; [|apply load_getTable_calls].
  unfold outcome. rewrite (run_rejection_sticky Schema Table insert _ _ TypeError);
    [reflexivity|].
  unfold load_start. apply fold_start_unroutable; [|left; reflexivity].
  exists d. split; [exact Hd|].
  apply tableName_needs_breakdowns_array. exact Hb.
Qed.

Lemma record_without_breakdowns_rejects_load_witness :
  outcome (load "proj" no_schemas accepting_getTable accepting_insert
             [sample_record "1"; VObj [("period", VStr "daily")]])
  = Some (inl TypeError) ∧
  getTable_calls (load "proj" no_schemas accepting_getTable accepting_insert
                    [sample_record "1"; VObj [("period", VStr "daily")]])
  = [GetTable "proj.facebook_ads_insights.facebook_ads_insights_daily_age_gender"
       None].
Proof.
  apply (record_without_breakdowns_rejects_load "proj" unit string no_schemas
           accepting_getTable accepting_insert
           [sample_record "1"; VObj [("period", VStr "daily")]]
           (VObj [("period", VStr "daily")]) (full_schedule 2)).
  - right; left.
  - intros elems. discriminate.
Defined.

(** X7. A whole load issues, first, one [getTable] call per record
    that has a table name and, then, one insert for each record whose
    table was obtained, into the handle obtained for that record. So a
    record is inserted exactly when its own table was obtained, also
    when the load as a whole is rejected because of another record:
    nothing is cancelled and nothing is rolled back. *)
Theorem load_inserts_record_of_obtained_table
    (projectId : string) (Schema Table : Type)
    (schemas : string → option Schema)
    (getTable : string → option Schema → string + Table)
    (insert : Table → value → string + unit)
    (records : list value) :
  issued (load projectId schemas getTable insert records)
  = (records ≫= started_calls projectId schemas)
    ++ (records ≫= insert_calls projectId schemas getTable) ∧
  ∀ table data,
    Insert table data ∈ issued (load projectId schemas getTable insert records) ↔
    data ∈ records ∧
    ∃ name, tableName data = inr name ∧
            getTable (fullyQualifiedTableName projectId name) (schemas name)
            = inr table.
Proof.
  destruct (load_effects projectId Schema Table schemas getTable insert records)
    as [Hissued _].
  split; [exact Hissued|].
  intros table data. rewrite Hissued, elem_of_app, !list_elem_of_bind. split.
  - intros [(d & Hin & _)|(d & Hin & Hd)].
    + exfalso. unfold started_calls in Hin.
      destruct (tableName d); [inversion Hin|].
      apply list_elem_of_singleton in Hin. discriminate.
    + unfold insert_calls in Hin.
      destruct (tableName d) as [e|name] eqn:Hn; [inversion Hin|].
      destruct (getTable _ _) as [cause|t] eqn:Hg; [inversion Hin|].
      apply list_elem_of_singleton in Hin. injection Hin as -> ->.
      split; [exact Hd|]. eauto.
  - intros (Hd & name & Hn & Hg). right. exists data. split; [|exact Hd].
    unfold insert_calls. rewrite Hn, Hg. left.
Qed.

(** A client that has no table for the lifetime records. *)
Definition daily_only_getTable (name : string) (schema : option unit)
    : string + string :=
  if String.eqb name
       "proj.facebook_ads_insights.facebook_ads_insights_daily_age_gender"
  then inr name else inl "notFound".

Example rejected_load_still_inserts :
  issued (load "proj" no_schemas daily_only_getTable accepting_insert
            [insightRecord (VStr "act_9") (VStr "1") "lifetime" ["age"; "gender"] [];
             sample_record "1"])
  = [GetTable "proj.facebook_ads_insights.facebook_ads_insights_lifetime_age_gender"
       None;
     GetTable "proj.facebook_ads_insights.facebook_ads_insights_daily_age_gender"
       None;
     Insert "proj.facebook_ads_insights.facebook_ads_insights_daily_age_gender"
       (sample_record "1")] ∧
  outcome (load "proj" no_schemas daily_only_getTable accepting_insert
             [insightRecord (VStr "act_9") (VStr "1") "lifetime" ["age"; "gender"] [];
              sample_record "1"])
  = Some (inl (RemoteError "notFound")).
Proof. split; vm_compute; reflexivity. Qed.

(** X8. A whole load resolves exactly when every record goes through:
    it has a table name, its table is obtained and its insert is
    accepted. Otherwise the load is rejected. *)
Theorem load_resolves_iff
    (projectId : string) (Schema Table : Type)
    (schemas : string → option Schema)
    (getTable : string → option Schema → string + Table)
    (insert : Table → value → string + unit)
    (records : list value) :
  (outcome (load projectId schemas getTable insert records) = Some (inr tt) ↔
   ∀ d, d ∈ records → record_loads projectId schemas getTable insert d) ∧
  (outcome (load projectId schemas getTable insert records) ≠ Some (inr tt) →
   ∃ e, outcome (load projectId schemas getTable insert records) = Some (inl e)).
Proof.
  assert (Hiff : outcome (load projectId schemas getTable insert records)
                 = Some (inr tt) ↔
                 ∀ d, d ∈ records → record_loads projectId schemas getTable insert d).
  { unfold outcome. split.
    - destruct (rejection _) as [e|]; [discriminate|].
      destruct (forallb _ _) eqn:Hall; [|discriminate]. intros _ d Hd.
      rewrite load_tasks in Hall.
      rewrite forallb_forall in Hall.
      apply resumed_twice_resolved.
      assert (Hres : is_resolved (resumed insert (resumed insert
                        (started_task projectId schemas getTable d))) = true).
      { apply Hall, list_elem_of_In, list_elem_of_fmap. eauto. }
      destruct (resumed insert (resumed insert
                  (started_task projectId schemas getTable d)));
        try discriminate. reflexivity.
    - intros Hall.
      assert (Htasks : Forall (fun t => t = Resolved)
                (tasks (load projectId schemas getTable insert records))).
      { rewrite load_tasks. apply Forall_fmap, Forall_forall.
        intros d Hd. apply resumed_twice_resolved, Hall, Hd. }
      destruct (rejection _) as [e|] eqn:Hrej.
      + exfalso.
        destruct (load_rejection_has_task projectId Schema Table schemas
                    getTable insert records) as (i & e' & Hi);
          [rewrite Hrej; discriminate|].
        pose proof (Forall_lookup_1 _ _ _ _ Htasks Hi) as Habs. discriminate.
      + assert (Hfb : forallb is_resolved
                  (tasks (load projectId schemas getTable insert records)) = true).
        { apply forallb_forall. intros t Ht.
          apply list_elem_of_In in Ht.
          rewrite Forall_forall in Htasks. rewrite (Htasks t Ht). reflexivity. }
        rewrite Hfb. reflexivity. }
  split; [exact Hiff|].
  intros Hne.
  destruct (load_settles projectId Schema Table schemas getTable insert records)
    as [[e|[]] Hr]; [eauto|contradiction].
Qed.

Section LoadCache.

Variable projectId : string.
Variables Schema Table : Type.
Variable schemas : string → option Schema.
Variable getTable : string → option Schema → string + Table.

(** Every handle in the cache is the one the client returns for its
    table name. *)
Definition cache_of_client (m : gmap string Table) : Prop :=
  ∀ name table,
    m !! name = Some table →
    getTable (fullyQualifiedTableName projectId name) (schemas name) = inr table.

Lemma stored_handle_lookup (m : gmap string Table) (d : value)
    (name : string) (table : Table) :
  cache_of_client m →
  stored_handle projectId schemas getTable m d !! name = Some table ↔
  m !! name = Some table ∨
  (tableName d = inr name ∧
   getTable (fullyQualifiedTableName projectId name) (schemas name) = inr table).
Proof.
  intros Hm. unfold stored_handle.
  destruct (tableName d) as [e|n] eqn:Hn.
  { split; [auto|]. intros [H|[H _]]; [exact H|discriminate]. }
  destruct (getTable (fullyQualifiedTableName projectId n) (schemas n))
    as [cause|t] eqn:Hg.
  { split; [auto|]. intros [H|[[= ->] H]]; [exact H|congruence]. }
  destruct (decide (n = name)) as [->|Hne].
  - rewrite lookup_insert_eq. split.
    + intros [= ->]. right. auto.
    + intros [H|[_ H]]; [apply Hm in H|]; congruence.
  - rewrite lookup_insert_ne by exact Hne. split; [auto|].
    intros [H|[[= ->] _]]; [exact H|contradiction].
Qed.

Lemma stored_handle_of_client (m : gmap string Table) (d : value) :
  cache_of_client m →
  cache_of_client (stored_handle projectId schemas getTable m d).
Proof.
  intros Hm name table H.
  apply (stored_handle_lookup m d name table Hm) in H as [H|[_ H]];
    [apply Hm|]; exact H.
Qed.

Lemma fold_stored_handle_lookup (records : list value) (m : gmap string Table)
    (name : string) (table : Table) :
  cache_of_client m →
  fold_left (stored_handle projectId schemas getTable) records m !! name
  = Some table ↔
  m !! name = Some table ∨
  ((∃ d, d ∈ records ∧ tableName d = inr name) ∧
   getTable (fullyQualifiedTableName projectId name) (schemas name) = inr table).
Proof.
  revert m. induction records as [|d records IH]; intros m Hm.
  - cbn. split; [auto|]. intros [H|[(d & Hd & _) _]]; [exact H|inversion Hd].
  - cbn [fold_left].
    rewrite (IH _ (stored_handle_of_client m d Hm)).
    rewrite (stored_handle_lookup m d name table Hm). split.
    + intros [[H|[Hn Hg]]|[(d' & Hd' & Hn) Hg]]; [left; exact H| |].
      * right. split; [|exact Hg]. exists d. split; [left|exact Hn].
      * right. split; [|exact Hg]. exists d'. split; [right; exact Hd'|exact Hn].
    + intros [H|[(d' & Hd' & Hn) Hg]]; [left; left; exact H|].
      apply elem_of_cons in Hd' as [->|Hd'].
      * left. right. auto.
      * right. split; [|exact Hg]. eauto.
Qed.

End LoadCache.

Arguments cache_of_client projectId {Schema Table} schemas getTable m.

(** X9. After a whole load the [tables] cache holds a handle under a
    name exactly when a record was routed to that name and the client
    returned the handle for it: write and read back agree, and nothing
    else is ever stored. *)
Theorem cache_after_load
    (projectId : string) (Schema Table : Type)
    (schemas : string → option Schema)
    (getTable : string → option Schema → string + Table)
    (insert : Table → value → string + unit)
    (records : list value) (name : string) (table : Table) :
  tables (load projectId schemas getTable insert records) !! name = Some table ↔
  (∃ d, d ∈ records ∧ tableName d = inr name) ∧
  getTable (fullyQualifiedTableName projectId name) (schemas name) = inr table.
Proof.
  destruct (load_effects projectId Schema Table schemas getTable insert records)
    as [_ ->].
  rewrite fold_stored_handle_lookup.
  - rewrite lookup_empty. split; [|auto]. intros [H|H]; [discriminate|exact H].
  - intros n t H. rewrite lookup_empty in H. discriminate.
Qed.

(** * The web front end

    The route handlers of [server.js]: the OAuth callback, the account
    selection page and the insights page. A handler is a function of
    the request (the user of the session and the query parameters) that
    yields the reply, the user of the session afterwards and the calls
    made to the services, in order. The services are parameters: their
    classes are not among the sources verified here; their methods are
    asynchronous, so a failure is a rejected promise that the handler's
    [try]/[catch] catches. *)

(** [!v] is [negb (truthy v)]. *)
Definition truthy (v : value) : bool :=
  match v with
  | VUndefined | VNull => false
  | VBool b => b
  | VNum n => negb (n =? 0)%Z
  | VStr s => negb (String.eqb s "")
  | VArr _ | VObj _ => true
  end.

(** [Object.keys(v)] of a value other than [undefined] and [null]: the
    keys of an object (the fields of a [VObj] are in the order in which
    JavaScript enumerates them), the indices of an array or of a
    string, nothing for a number or a boolean. *)
Definition Object_keys_of (v : value) : list string :=
  match v with
  | VObj fields => map fst fields
  | VArr elems => pretty <$> seq 0 (length elems)
  | VStr s => pretty <$> seq 0 (String.length s)
  | _ => []
  end.

Record request : Type := Request {
  session_user : value;
  query : list (string * value)
}.

Inductive response : Type :=
| Redirect (location : string)
| Send (status : Z) (body : string)
| Render (view : string) (locals : list (string * value)).

Inductive service_call : Type :=
| ExchangeLongLivedToken (access_token : value)
| StoreToken (appId token : value)
| FetchToken (userId appId : value)
| FetchPersonalAdaccounts (access_token : value)
| FetchBusinessAdaccounts (access_token : value)
| FetchAllAdsWithMetrics (adAccounts : list value) (access_token : value).

Record handled : Type := Handled {
  reply : response;
  session_user_after : value;
  service_calls : list service_call
}.

(** [req.query.k]. *)
Definition query_param (k : string) (req : request) : value :=
  default VUndefined (assoc k (query req)).

(** [res.status(500).send('Internal Server Error')]. *)
Definition internal_server_error : response := Send 500 "Internal Server Error".

Section WebFrontEnd.

(** [config.facebook.APP_ID] and the [metricNames] of [lib/zod-schemas]. *)
Variable APP_ID : value.
Variable metricNames : value.

(** The outcome of the calls to [facebookTokensService],
    [tokensRepository] and [facebookAdsInsightsSaverService]. The ads
    with their metrics come as an array of rows. *)
Variable exchangeLongLivedToken : value → string + value.
Variable storeToken : value → value → string + value.
Variable fetchToken : value → value → string + value.
Variable fetchPersonalAdaccounts : value → string + value.
Variable fetchBusinessAdaccounts : value → string + value.
Variable fetchAllAdsWithMetrics : list value → value → string + list value.

(** [app.get('/')]. *)
Definition index (req : request) : handled :=
  Handled
    (Render "index"
       [("appId", APP_ID);
        ("scope", VStr "public_profile,read_insights,business_management,ads_read,pages_read_engagement")])
    (session_user req) [].

(** [app.get('/auth/callback')]. *)
Definition auth_callback (req : request) : handled :=
  let access_token := query_param "access_token" req in
  if negb (truthy access_token) then
    Handled (Send 400 "Access token is missing") (session_user req) []
  else
    match exchangeLongLivedToken access_token with
    | inl _ =>
        Handled internal_server_error (session_user req)
                [ExchangeLongLivedToken access_token]
    | inr longLivedToken =>
        match storeToken APP_ID longLivedToken with
        | inl _ =>
            Handled internal_server_error (session_user req)
                    [ExchangeLongLivedToken access_token;
                     StoreToken APP_ID longLivedToken]
        | inr me =>
            Handled (Redirect "/ad-accounts") me
                    [ExchangeLongLivedToken access_token;
                     StoreToken APP_ID longLivedToken]
        end
    end.

(** [app.get('/ad-accounts')]. Both listings are called before either
    is awaited. *)
Definition ad_accounts (req : request) : handled :=
  let user := session_user req in
  if negb (truthy user) then Handled (Redirect "/") user []
  else
    match get_prop "id" user with
    | inl _ => Handled internal_server_error user []
    | inr userId =>
        match fetchToken userId APP_ID with
        | inl _ => Handled internal_server_error user [FetchToken userId APP_ID]
        | inr token =>
            match get_prop "access_token" token with
            | inl _ => Handled internal_server_error user [FetchToken userId APP_ID]
            | inr access_token =>
                let calls := [FetchToken userId APP_ID;
                              FetchPersonalAdaccounts access_token;
                              FetchBusinessAdaccounts access_token] in
                match fetchPersonalAdaccounts access_token,
                      fetchBusinessAdaccounts access_token with
                | inr personalAccounts, inr businessAccounts =>
                    Handled
                      (Render "ad-accounts"
                         [("personalAccounts", personalAccounts);
                          ("businessAccounts", businessAccounts)])
                      user calls
                | _, _ => Handled internal_server_error user calls
                end
            end
        end
    end.

(** [Array.isArray(selectedAccounts) ? selectedAccounts : [selectedAccounts]]. *)
Definition accountIds (selectedAccounts : value) : list value :=
  match selectedAccounts with
  | VArr ids => ids
  | v => [v]
  end.

(** [accountIds.map(id => ({ id }))]. *)
Definition selectedAdAccounts (selectedAccounts : value) : list value :=
  (fun id => VObj [("id", id)]) <$> accountIds selectedAccounts.

(** [Object.keys(allAdsWithMetrics[0] || {})]. *)
Definition metrics_of (allAdsWithMetrics : list value) : list string :=
  let first := match allAdsWithMetrics with
               | [] => VUndefined
               | row :: _ => row
               end in
  Object_keys_of (if truthy first then first else VObj []).

(** [app.get('/ads-insights')]. *)
Definition ads_insights (req : request) : handled :=
  let user := session_user req in
  if negb (truthy user) then Handled (Redirect "/") user []
  else
    let selectedAccounts := query_param "accounts" req in
    if negb (truthy selectedAccounts) then Handled (Redirect "/ad-accounts") user []
    else
      match get_prop "id" user with
      | inl _ => Handled internal_server_error user []
      | inr userId =>
          match fetchToken userId APP_ID with
          | inl _ => Handled internal_server_error user [FetchToken userId APP_ID]
          | inr token =>
              match get_prop "access_token" token with
              | inl _ =>
                  Handled internal_server_error user [FetchToken userId APP_ID]
              | inr access_token =>
                  let calls :=
                    [FetchToken userId APP_ID;
                     FetchAllAdsWithMetrics (selectedAdAccounts selectedAccounts)
                                            access_token] in
                  match fetchAllAdsWithMetrics (selectedAdAccounts selectedAccounts)
                                               access_token with
                  | inl _ => Handled internal_server_error user calls
                  | inr allAdsWithMetrics =>
                      Handled
                        (Render "ads-insights"
                           [("adsData", VArr allAdsWithMetrics);
                            ("metrics", str_array (metrics_of allAdsWithMetrics));
                            ("metricNames", metricNames)])
                        user calls
                  end
              end
          end
      end.

End WebFrontEnd.

(** ** Properties of the handlers *)

(** X10. The OAuth callback logs in exactly when an access token is
    given, its exchange succeeds and the storing of the exchanged token
    succeeds: it then redirects to the accounts page, and the user of
    the session is what [storeToken] returned for the long-lived token
    (never for the token of the query). In every other case the session
    is left as it was; without a token no service is called. *)
Theorem callback_logs_in_iff
    (APP_ID : value)
    (exchangeLongLivedToken : value → string + value)
    (storeToken : value → value → string + value)
    (req : request) :
  let done := auth_callback APP_ID exchangeLongLivedToken storeToken req in
  let access_token := query_param "access_token" req in
  (reply done = Redirect "/ad-accounts" ↔
   truthy access_token = true ∧
   ∃ longLivedToken,
     exchangeLongLivedToken access_token = inr longLivedToken ∧
     storeToken APP_ID longLivedToken = inr (session_user_after done) ∧
     service_calls done = [ExchangeLongLivedToken access_token;
                           StoreToken APP_ID longLivedToken]) ∧
  (reply done ≠ Redirect "/ad-accounts" →
   session_user_after done = session_user req ∧
   (reply done = Send 400 "Access token is missing"
    ∨ reply done = internal_server_error)) ∧
  (truthy access_token = false →
   reply done = Send 400 "Access token is missing" ∧ service_calls done = []).
Proof.
  cbv zeta. unfold auth_callback.
  destruct (truthy (query_param "access_token" req)) eqn:Htok; cbn [negb].
  - destruct (exchangeLongLivedToken _) as [cause|ll] eqn:Hex;
      [|destruct (storeToken APP_ID ll) as [cause|me] eqn:Hst]; cbn.
    + split; [|split; [auto|discriminate]].
      split; [discriminate|]. intros (_ & ll & [=] & _).
    + split; [|split; [auto|discriminate]].
      split; [discriminate|]. intros (_ & ll' & [= <-] & H & _). congruence.
    + split; [|split; [intros H; contradiction|discriminate]].
      split; [|reflexivity]. intros _. split; [reflexivity|]. eauto.
  - cbn. split; [|split; auto].
    split; [discriminate|]. intros [[=] _].
Qed.

(** X11. The account page and the insights page call a service, and
    render, only for a session that has a user; the insights page
    moreover only for a selection of accounts. Neither handler ever
    changes the user of the session. *)
Theorem pages_require_session
    (APP_ID metricNames : value)
    (fetchToken : value → value → string + value)
    (fetchPersonalAdaccounts fetchBusinessAdaccounts : value → string + value)
    (fetchAllAdsWithMetrics : list value → value → string + list value)
    (req : request) :
  let accounts := ad_accounts APP_ID fetchToken fetchPersonalAdaccounts
                    fetchBusinessAdaccounts req in
  let insights := ads_insights APP_ID metricNames fetchToken
                    fetchAllAdsWithMetrics req in
  ((service_calls accounts ≠ [] ∨ (∃ view locals, reply accounts = Render view locals)) →
   truthy (session_user req) = true) ∧
  ((service_calls insights ≠ [] ∨ (∃ view locals, reply insights = Render view locals)) →
   truthy (session_user req) = true ∧ truthy (query_param "accounts" req) = true) ∧
  session_user_after accounts = session_user req ∧
  session_user_after insights = session_user req.
Proof.
  cbv zeta. unfold ad_accounts, ads_insights.
  destruct (truthy (session_user req)) eqn:Hu; cbn [negb].
  - split; [auto|].
    destruct (truthy (query_param "accounts" req)) eqn:Hs; cbn [negb].
    + split; [auto|].
      destruct (get_prop "id" (session_user req)) as [e|userId]; [auto|].
      destruct (fetchToken userId APP_ID) as [cause|token]; [auto|].
      destruct (get_prop "access_token" token) as [e|tok]; [auto|].
      split.
      * destruct (fetchPersonalAdaccounts tok), (fetchBusinessAdaccounts tok);
          reflexivity.
      * destruct (fetchAllAdsWithMetrics _ tok); reflexivity.
    + split.
      { intros [H|(v & l & H)]; [contradiction|discriminate]. }
      split; [|reflexivity].
      destruct (get_prop "id" (session_user req)) as [e|userId]; [auto|].
      destruct (fetchToken userId APP_ID) as [cause|token]; [auto|].
      destruct (get_prop "access_token" token) as [e|tok]; [auto|].
      destruct (fetchPersonalAdaccounts tok), (fetchBusinessAdaccounts tok);
        reflexivity.
  - cbn. split; [|split; [|auto]];
      intros [H|(v & l & H)]; (contradiction || discriminate).
Qed.

(** X12. The insights page passes the selection on as one [{id}]
    object per selected id, in the order of the selection: a selection
    that is an array gives one account per element (none for the empty
    array), any other selection gives exactly one account; reading [id]
    back gives the selected ids. The
    token sent along is the [access_token] of the token fetched for
    the user of the session. *)
Theorem insights_selection_passed_on
    (APP_ID metricNames : value)
    (fetchToken : value → value → string + value)
    (fetchAllAdsWithMetrics : list value → value → string + list value)
    (req : request) (adAccounts : list value) (access_token : value) :
  FetchAllAdsWithMetrics adAccounts access_token
    ∈ service_calls (ads_insights APP_ID metricNames fetchToken
                       fetchAllAdsWithMetrics req) →
  adAccounts = selectedAdAccounts (query_param "accounts" req) ∧
  get_prop "id" <$> adAccounts = inr <$> accountIds (query_param "accounts" req) ∧
  length adAccounts
  = match query_param "accounts" req with
    | VArr ids => length ids
    | _ => 1
    end ∧
  ∃ userId token,
    get_prop "id" (session_user req) = inr userId ∧
    fetchToken userId APP_ID = inr token ∧
    get_prop "access_token" token = inr access_token.
Proof.
  unfold ads_insights.
  destruct (truthy (session_user req)); cbn [negb]; [|intros H; inversion H].
  destruct (truthy (query_param "accounts" req)); cbn [negb];
    [|intros H; inversion H].
  destruct (get_prop "id" (session_user req)) as [e|userId] eqn:Hid;
    [intros H; inversion H|].
  destruct (fetchToken userId APP_ID) as [cause|token] eqn:Htok.
  { cbn. intros H. apply list_elem_of_singleton in H. discriminate. }
  destruct (get_prop "access_token" token) as [e|tok] eqn:Hat.
  { cbn. intros H. apply list_elem_of_singleton in H. discriminate. }
  intros H.
  assert (Hcall : FetchAllAdsWithMetrics adAccounts access_token
                  = FetchAllAdsWithMetrics
                      (selectedAdAccounts (query_param "accounts" req)) tok).
  { destruct (fetchAllAdsWithMetrics _ tok); cbn in H;
      apply elem_of_cons in H as [H|H]; try discriminate;
      apply list_elem_of_singleton in H; exact H. }
  injection Hcall as -> ->.
  split; [reflexivity|]. split; [|split].
  - unfold selectedAdAccounts. rewrite <- list_fmap_compose.
    apply list_fmap_ext. intros i id _. reflexivity.
  - unfold selectedAdAccounts, accountIds. rewrite length_fmap.
    destruct (query_param "accounts" req); reflexivity.
  - eauto.
Qed.

(** Sample services and requests for the concrete instances. *)
Definition sample_user : value := VObj [("id", VStr "u1")].

Definition sample_fetchToken (userId appId : value) : string + value :=
  inr (VObj [("access_token", VStr "tok")]).

Definition sample_fetchAllAdsWithMetrics (adAccounts : list value)
    (access_token : value) : string + list value :=
  inr ((fun account => VObj [("ad_id", VStr "1"); ("clicks", VNum 3)])
         <$> adAccounts).

Lemma insights_selection_passed_on_witness :
  [VObj [("id", VStr "act_1")]; VObj [("id", VStr "act_2")]]
  = selectedAdAccounts (VArr [VStr "act_1"; VStr "act_2"]) ∧
  length [VObj [("id", VStr "act_1")]; VObj [("id", VStr "act_2")]] = 2.
Proof.
  destruct (insights_selection_passed_on (VStr "app") VNull sample_fetchToken
              sample_fetchAllAdsWithMetrics
              (Request sample_user [("accounts", VArr [VStr "act_1"; VStr "act_2"])])
              [VObj [("id", VStr "act_1")]; VObj [("id", VStr "act_2")]]
              (VStr "tok"))
    as (Hsel & _ & Hlen & _).
  - right; left.
  - split; [exact Hsel|exact Hlen].
Defined.

(** X13. What the insights page renders is the rows of the service in
    full, and as columns the keys of the first row only: no column when
    there is no row or when the first row is [null], whatever the later
    rows hold, and the keys of the first row, in their order, when it
    is an object. *)
Theorem insights_columns_from_first_row
    (APP_ID metricNames : value)
    (fetchToken : value → value → string + value)
    (fetchAllAdsWithMetrics : list value → value → string + list value)
    (req : request) (view : string) (locals : list (string * value)) :
  reply (ads_insights APP_ID metricNames fetchToken fetchAllAdsWithMetrics req)
  = Render view locals →
  ∃ rows access_token,
    fetchAllAdsWithMetrics (selectedAdAccounts (query_param "accounts" req))
                           access_token = inr rows ∧
    view = "ads-insights" ∧
    locals = [("adsData", VArr rows);
              ("metrics", str_array (metrics_of rows));
              ("metricNames", metricNames)] ∧
    (rows = [] → metrics_of rows = []) ∧
    (∀ rest, metrics_of (VNull :: rest) = []) ∧
    (∀ fields rest, metrics_of (VObj fields :: rest) = fst <$> fields).
Proof.
  unfold ads_insights.
  destruct (truthy (session_user req)); cbn [negb]; [|discriminate].
  destruct (truthy (query_param "accounts" req)); cbn [negb]; [|discriminate].
  destruct (get_prop "id" (session_user req)) as [e|userId]; [discriminate|].
  destruct (fetchToken userId APP_ID) as [cause|token]; [discriminate|].
  destruct (get_prop "access_token" token) as [e|tok]; [discriminate|].
  destruct (fetchAllAdsWithMetrics _ tok) as [cause|rows] eqn:Hrows;
    [discriminate|].
  cbn. intros [= <- <-]. exists rows, tok.
  split; [exact Hrows|]. split; [reflexivity|]. split; [reflexivity|].
  split; [intros ->; reflexivity|]. split; reflexivity.
Qed.

Lemma insights_columns_from_first_row_witness :
  ∃ rows access_token,
    sample_fetchAllAdsWithMetrics (selectedAdAccounts (VStr "act_1"))
                                  access_token = inr rows ∧
    metrics_of rows = ["ad_id"; "clicks"].
Proof.
  destruct (insights_columns_from_first_row (VStr "app") VNull sample_fetchToken
              sample_fetchAllAdsWithMetrics
              (Request sample_user [("accounts", VStr "act_1")])
              "ads-insights"
              [("adsData", VArr [VObj [("ad_id", VStr "1"); ("clicks", VNum 3)]]);
               ("metrics", str_array ["ad_id"; "clicks"]);
               ("metricNames", VNull)])
    as (rows & tok & Hrows & _ & Hlocals & _).
  - reflexivity.
  - exists rows, tok. split; [exact Hrows|].
    injection Hlocals as <- _. reflexivity.
Defined.

(** Two outcomes of a service call that a caller who does not look at
    the cause of a failure cannot tell apart. *)
Definition same_outcome {A : Type} (r1 r2 : string + A) : Prop :=
  match r1, r2 with
  | inl _, inl _ => True
  | inr a, inr b => a = b
  | _, _ => False
  end.

(** X14. No handler lets the cause of a failure through: services that
    succeed with the same results and fail on the same calls, with
    whatever causes, get the same replies, the same sessions and the
    same calls from the three handlers. *)
Theorem failure_causes_are_masked
    (APP_ID metricNames : value)
    (exchange1 exchange2 : value → string + value)
    (store1 store2 : value → value → string + value)
    (token1 token2 : value → value → string + value)
    (personal1 personal2 business1 business2 : value → string + value)
    (ads1 ads2 : list value → value → string + list value)
    (req : request) :
  (∀ v, same_outcome (exchange1 v) (exchange2 v)) →
  (∀ a v, same_outcome (store1 a v) (store2 a v)) →
  (∀ u a, same_outcome (token1 u a) (token2 u a)) →
  (∀ v, same_outcome (personal1 v) (personal2 v)) →
  (∀ v, same_outcome (business1 v) (business2 v)) →
  (∀ l v, same_outcome (ads1 l v) (ads2 l v)) →
  auth_callback APP_ID exchange1 store1 req
  = auth_callback APP_ID exchange2 store2 req ∧
  ad_accounts APP_ID token1 personal1 business1 req
  = ad_accounts APP_ID token2 personal2 business2 req ∧
  ads_insights APP_ID metricNames token1 ads1 req
  = ads_insights APP_ID metricNames token2 ads2 req.
Proof.
  intros Hex Hst Htok Hper Hbus Hads.
  split; [|split].
  - unfold auth_callback.
    destruct (truthy (query_param "access_token" req)); [|reflexivity].
    cbn [negb].
    pose proof (Hex (query_param "access_token" req)) as H.
    destruct (exchange1 _) as [c1|ll1], (exchange2 _) as [c2|ll2];
      cbn in H; try contradiction; [reflexivity|]. subst ll2.
    pose proof (Hst APP_ID ll1) as H'.
    destruct (store1 APP_ID ll1), (store2 APP_ID ll1);
      cbn in H'; try contradiction; [reflexivity|]. subst. reflexivity.
  - unfold ad_accounts.
    destruct (truthy (session_user req)); [|reflexivity]. cbn [negb].
    destruct (get_prop "id" (session_user req)) as [e|userId]; [reflexivity|].
    pose proof (Htok userId APP_ID) as H.
    destruct (token1 userId APP_ID) as [c1|t1], (token2 userId APP_ID) as [c2|t2];
      cbn in H; try contradiction; [reflexivity|]. subst t2.
    destruct (get_prop "access_token" t1) as [e|tok]; [reflexivity|].
    pose proof (Hper tok) as Hp. pose proof (Hbus tok) as Hb.
    destruct (personal1 tok), (personal2 tok); cbn in Hp; try contradiction;
      destruct (business1 tok), (business2 tok); cbn in Hb; try contradiction;
      subst; reflexivity.
  - unfold ads_insights.
    destruct (truthy (session_user req)); [|reflexivity]. cbn [negb].
    destruct (truthy (query_param "accounts" req)); [|reflexivity]. cbn [negb].
    destruct (get_prop "id" (session_user req)) as [e|userId]; [reflexivity|].
    pose proof (Htok userId APP_ID) as H.
    destruct (token1 userId APP_ID) as [c1|t1], (token2 userId APP_ID) as [c2|t2];
      cbn in H; try contradiction; [reflexivity|]. subst t2.
    destruct (get_prop "access_token" t1) as [e|tok]; [reflexivity|].
    pose proof (Hads (selectedAdAccounts (query_param "accounts" req)) tok) as Ha.
    destruct (ads1 _ tok), (ads2 _ tok); cbn in Ha; try contradiction;
      subst; reflexivity.
Qed.

Lemma failure_causes_are_masked_witness :
  ads_insights (VStr "app") VNull (fun _ _ => inl "token expired")
    sample_fetchAllAdsWithMetrics
    (Request sample_user [("accounts", VStr "act_1")])
  = ads_insights (VStr "app") VNull (fun _ _ => inl "ECONNRESET")
      sample_fetchAllAdsWithMetrics
      (Request sample_user [("accounts", VStr "act_1")]).
Proof.
  apply (failure_causes_are_masked (VStr "app") VNull
           (fun _ => inl "a") (fun _ => inl "b")
           (fun _ _ => inl "a") (fun _ _ => inl "b")
           (fun _ _ => inl "token expired") (fun _ _ => inl "ECONNRESET")
           (fun _ => inl "a") (fun _ => inl "b")
           (fun _ => inl "a") (fun _ => inl "b")
           sample_fetchAllAdsWithMetrics sample_fetchAllAdsWithMetrics
           (Request sample_user [("accounts", VStr "act_1")]));
    intros; exact I || reflexivity.
Defined.

(** X15. After a login, the account page: with the session the OAuth
    callback left, the account page goes back to the start page exactly
    when the user that [storeToken] returned is falsy (the callback does
    not check it); otherwise its first call fetches the token stored for
    the [id] of that user and the same application. *)
Theorem account_page_after_login
    (APP_ID : value)
    (exchangeLongLivedToken : value → string + value)
    (storeToken : value → value → string + value)
    (fetchToken : value → value → string + value)
    (fetchPersonalAdaccounts fetchBusinessAdaccounts : value → string + value)
    (req : request) (params : list (string * value)) :
  let done := auth_callback APP_ID exchangeLongLivedToken storeToken req in
  let page := ad_accounts APP_ID fetchToken fetchPersonalAdaccounts
                fetchBusinessAdaccounts
                (Request (session_user_after done) params) in
  reply done = Redirect "/ad-accounts" →
  (reply page = Redirect "/" ↔ truthy (session_user_after done) = false) ∧
  (truthy (session_user_after done) = true →
   ∃ userId rest,
     get_prop "id" (session_user_after done) = inr userId ∧
     service_calls page = FetchToken userId APP_ID :: rest).
Proof.
  cbv zeta. intros _. unfold ad_accounts. cbn [session_user].
  set (me := session_user_after _).
  destruct (truthy me) eqn:Hme; cbn [negb].
  - assert (Hid : ∃ userId, get_prop "id" me = inr userId).
    { destruct me; try discriminate; cbn; eauto. }
    destruct Hid as [userId Hid]. rewrite Hid.
    split.
    + split; [|discriminate].
      destruct (fetchToken userId APP_ID) as [c|token]; [discriminate|].
      destruct (get_prop "access_token" token) as [e|tok]; [discriminate|].
      destruct (fetchPersonalAdaccounts tok), (fetchBusinessAdaccounts tok);
        discriminate.
    + intros _. exists userId.
      destruct (fetchToken userId APP_ID) as [c|token]; [eauto|].
      destruct (get_prop "access_token" token) as [e|tok]; [eauto|].
      destruct (fetchPersonalAdaccounts tok), (fetchBusinessAdaccounts tok);
        eauto.
  - split; [split; reflexivity|discriminate].
Qed.

Lemma account_page_after_login_witness :
  reply (ad_accounts (VStr "app") sample_fetchToken
           (fun _ => inr (VArr [])) (fun _ => inr (VArr []))
           (Request VUndefined [])) = Redirect "/" ↔
  truthy VUndefined = false.
Proof.
  apply (account_page_after_login (VStr "app")
           (fun tok => inr (VStr "long-lived")) (fun _ _ => inr VUndefined)
           sample_fetchToken (fun _ => inr (VArr [])) (fun _ => inr (VArr []))
           (Request VNull [("access_token", VStr "short-lived")]) []).
  reflexivity.
Defined.
